(** * omfsi: the modal structural solver (modal_structure_component.py)

    A shallow embedding of the four OpenMDAO components of
    [omfsi/modal_structure_component.py] -- [ModalDecomp], [ModalForces],
    [ModalSolver] and [ModalDisplacements] -- and of the part of
    [ModalStructAssembler] that wires them together.

    Conventions of the embedding:
    - a NumPy [float64] is a real number ([R]): arithmetic is exact, so
      rounding, overflow and the IEEE special values are outside the model.
      Division is Rocq's total [Rdiv]; like NumPy's, it raises nothing when
      the divisor is zero, but what it returns there is a real number where
      NumPy returns [inf] or [nan]: an identity between quotients is
      stated for divisors that are not zero;
    - a one-dimensional array is a [list R], a two-dimensional array the list
      of its rows;
    - Python exceptions are the [Raise] results of the [result] monad;
    - the arrays that a method mutates in place ([outputs], [d_inputs],
      [d_outputs]) are passed in and returned: explicit state passing;
    - the option dictionary of a component is a [gmap string optval]. *)

From Stdlib Require Import Reals Lra Ranalysis1.
From stdpp Require Import gmap strings list.

Set Default Proof Using "Type".

(** ** Exceptions and the error monad *)

Inductive exn : Type :=
| KeyError (key : string)
| RuntimeError (msg : string)
| IndexError
| TypeError
| ValueError
| ZeroDivisionError
| ExternalError (msg : string).

Inductive result (A : Type) : Type :=
| Ok (a : A)
| Raise (e : exn).
Arguments Ok {A} a.
Arguments Raise {A} e.

#[global] Instance result_ret : MRet result := fun A a => Ok a.
#[global] Instance result_bind : MBind result := fun A B f m =>
  match m with
  | Ok a => f a
  | Raise e => Raise e
  end.


(** [for i in range(n): s = body(i, s)], the loop state threaded through
    the monad; an exception in the body leaves the loop. *)
Fixpoint for_range_from {St : Type} (i n : nat)
    (body : nat -> St -> result St) (s : St) : result St :=
  match n with
  | O => Ok s
  | S n' => s' ← body i s; for_range_from (S i) n' body s'
  end.

Definition for_range {St : Type} (n : nat)
    (body : nat -> St -> result St) (s : St) : result St :=
  for_range_from 0 n body s.

(** ** NumPy arrays *)

Module np.

Abbreviation array := (list R).
Abbreviation array2 := (list (list R)).

(** [a[i]] for [i >= 0]. *)
Definition getitem {A} (a : list A) (i : nat) : result A :=
  match a !! i with
  | Some x => Ok x
  | None => Raise IndexError
  end.

(** [a[i] = x]. *)
Definition setitem {A} (a : list A) (i : nat) (x : A) : result (list A) :=
  if decide (i < length a) then Ok (<[i:=x]> a) else Raise IndexError.

(** Broadcasting of a one-dimensional value to a buffer of [n] entries:
    the same length, or a single entry repeated. *)
Definition broadcast_to (n : nat) (v : array) : result array :=
  if decide (length v = n) then Ok v
  else match v with
       | [y] => Ok (replicate n y)
       | _ => Raise ValueError
       end.

(** An elementwise binary operator [a op b] on one-dimensional arrays. *)
Definition binop (f : R -> R -> R) (a b : array) : result array :=
  if decide (length a = length b) then Ok (zip_with f a b)
  else match a, b with
       | [x], _ => Ok (map (f x) b)
       | _, [y] => Ok (map (fun x => f x y) a)
       | _, _ => Raise ValueError
       end.

Definition mul : array -> array -> result array := binop Rmult.
Definition div : array -> array -> result array := binop Rdiv.

(** [-a], [a ** 2.0] (NumPy evaluates the power 2.0 as a square) and
    [a * s] for a scalar [s]. *)
Definition neg (a : array) : array := map Ropp a.
Definition square (a : array) : array := map (fun x => (x * x)%R) a.
Definition scale (a : array) (s : R) : array := map (fun x => (x * s)%R) a.

(** [np.sum(a)]. *)
Definition sum (a : array) : R := fold_left Rplus a 0%R.

(** [buf[:] = c] for a scalar [c]. *)
Definition fill (buf : array) (c : R) : array := replicate (length buf) c.

(** [buf[:] = v] and the assignment [vec['name'] = v] of an OpenMDAO
    vector, which writes into the existing buffer. *)
Definition assign (buf v : array) : result array :=
  broadcast_to (length buf) v.

(** [buf += v], in place. *)
Definition iadd (buf v : array) : result array :=
  v' ← broadcast_to (length buf) v; Ok (zip_with Rplus buf v').

(** [a[start::step]]: the entries at [start], [start+step], ... The
    worker skips [skip] entries, keeps one, and goes on with [step - 1] to
    skip. *)
Fixpoint strided_from {A} (skip step : nat) (a : list A) : list A :=
  match a with
  | [] => []
  | x :: rest =>
      match skip with
      | O => x :: strided_from (pred step) step rest
      | S skip' => strided_from skip' step rest
      end
  end.

Definition getslice (a : array) (start step : nat) : result array :=
  if decide (step = 0) then Raise ValueError
  else Ok (strided_from start step a).

(** The entries of [a] at [start], [start+step], ... replaced, in order, by
    the entries of [v]. *)
Fixpoint scatter_from {A} (skip step : nat) (a v : list A) : list A :=
  match a with
  | [] => []
  | x :: rest =>
      match skip with
      | O =>
          match v with
          | y :: v' => y :: scatter_from (pred step) step rest v'
          | [] => x :: rest
          end
      | S skip' => x :: scatter_from skip' step rest v
      end
  end.

(** [a[start::step] = v]: [v] is broadcast to the length of the slice. *)
Definition setslice (a : array) (start step : nat) (v : array)
    : result array :=
  if decide (step = 0) then Raise ValueError
  else
    v' ← broadcast_to (length (strided_from start step a)) v;
    Ok (scatter_from start step a v').

End np.

(** ** The TACS library

    The finite-element assembler and the eigensolver are TACS objects: the
    repository calls them and does not contain them. They enter the model
    as data: what the calls of [ModalDecomp] return. *)

Module TACS.

(** [eig, err = freq.extractEigenvector(imode, vec)]: the eigenvalue, the
    error indicator, and the eigenvector that the call stores in [vec]. *)
Record eigenpair : Type := { eig : R; err : R; vec : np.array }.

Record assembler : Type :=
  { (** [createNodeVec()] filled by [getNodes]: the nodal coordinates *)
    nodes : np.array;
    (** [createVec().getArray().size] *)
    vec_size : nat;
    (** [setDesignVars(dv)], the assembly of the stiffness and mass
        matrices, [FrequencyAnalysis(tacs, sigma, mmat, kmat, gmres,
        num_eigs, eig_tol)] and its [solve()]: an exception, or the
        eigenpairs that [extractEigenvector] then hands out. *)
    frequency_analysis :
      np.array -> R -> nat -> R -> result (nat -> eigenpair) }.

End TACS.

(** ** OpenMDAO option dictionaries

    [self.options] of a component. The framework declares its own options
    before it calls the component's [initialize]; reading or writing an
    option that was never declared raises [KeyError], and reading one that
    was declared without a default and never set raises [RuntimeError]. *)

Module options.

Inductive optval : Type :=
| Undefined
| PyNone
| PyBool (b : bool)
| PyInt (n : nat)
| PyGetInt (call : unit -> nat)
| PyGetSizes (call : unit -> nat * nat)
| PyGetTacs (call : unit -> TACS.assembler)
| PyObject.

Abbreviation t := (gmap string optval).

(** [self.options.declare(name, default=...)]. *)
Definition declare (name : string) (default : optval) (o : t) : t :=
  <[name := default]> o.

(** [self.options[name]]. *)
Definition getitem (o : t) (name : string) : result optval :=
  match o !! name with
  | None => Raise (KeyError name)
  | Some Undefined => Raise (RuntimeError name)
  | Some v => Ok v
  end.

(** [self.options[name] = v]. *)
Definition setitem (o : t) (name : string) (v : optval) : result t :=
  match o !! name with
  | None => Raise (KeyError name)
  | Some _ => Ok (<[name := v]> o)
  end.

(** [self.options.update(kwargs)]. *)
Fixpoint update (o : t) (kwargs : list (string * optval)) : result t :=
  match kwargs with
  | [] => Ok o
  | (name, v) :: rest => o' ← setitem o name v; update o' rest
  end.

(** Instantiation with keyword arguments: the framework's declarations,
    then the component's [initialize], then the keyword arguments. *)
Definition instantiate (framework : t) (initialize : t -> result t)
    (kwargs : list (string * optval)) : result t :=
  o ← initialize framework; update o kwargs.

(** [range(v)] needs an integer; a [bool] is one. *)
Definition as_int (v : optval) : result nat :=
  match v with
  | PyInt n => Ok n
  | PyBool b => Ok (if b then 1 else 0)
  | _ => Raise TypeError
  end.

End options.

(** ** ModalSolver: [K z - mf = 0] *)

Module ModalSolver.

Record inputs : Type := { k : np.array; mf : np.array }.
Record outputs : Type := { z : np.array }.

(** The seed vectors of [compute_jacvec_product]; [None] when the name is
    not in the vector ([name in d_inputs] is false). *)
Record d_inputs : Type := { d_k : option np.array; d_mf : option np.array }.
Record d_outputs : Type := { d_z : option np.array }.

Definition initialize (o : options.t) : result options.t :=
  Ok (options.declare "nmodes" (options.PyInt 1) o).

(** [outputs['z'] = inputs['mf'] / inputs['k']] *)
Definition compute (i : inputs) (o : outputs) : result outputs :=
  q ← np.div (mf i) (k i);
  z' ← np.assign (z o) q;
  Ok {| z := z' |}.

(** [- inputs['mf'] / (inputs['k']**2.0) * seed] *)
Definition dz_dk_times (i : inputs) (seed : np.array) : result np.array :=
  q ← np.div (np.neg (mf i)) (np.square (k i)); np.mul q seed.

Definition jacvec_fwd (i : inputs) (d_i : d_inputs) (d_o : d_outputs)
    : result d_outputs :=
  match d_z d_o with
  | None => Ok d_o
  | Some dz =>
      dz ← match d_mf d_i with
           | Some dmf => v ← np.div dmf (k i); np.iadd dz v
           | None => Ok dz
           end;
      dz ← match d_k d_i with
           | Some dk => v ← dz_dk_times i dk; np.iadd dz v
           | None => Ok dz
           end;
      Ok {| d_z := Some dz |}
  end.

Definition jacvec_rev (i : inputs) (d_i : d_inputs) (d_o : d_outputs)
    : result d_inputs :=
  match d_z d_o with
  | None => Ok d_i
  | Some dz =>
      d_i ← match d_mf d_i with
            | Some buf =>
                v ← np.div dz (k i); buf' ← np.iadd buf v;
                Ok {| d_k := d_k d_i; d_mf := Some buf' |}
            | None => Ok d_i
            end;
      match d_k d_i with
      | Some buf =>
          v ← dz_dk_times i dz; buf' ← np.iadd buf v;
          Ok {| d_k := Some buf'; d_mf := d_mf d_i |}
      | None => Ok d_i
      end
  end.

Definition compute_jacvec_product (i : inputs) (d_i : d_inputs)
    (d_o : d_outputs) (mode : string) : result (d_inputs * d_outputs) :=
  d_o ← (if decide (mode = "fwd") then jacvec_fwd i d_i d_o else Ok d_o);
  d_i ← (if decide (mode = "rev") then jacvec_rev i d_i d_o else Ok d_i);
  Ok (d_i, d_o).

End ModalSolver.

(** ** ModalForces: nodal forces to modal forces *)

Module ModalForces.

(** The component object: its option dictionary and the two attributes that
    [setup] stores. *)
Record self : Type :=
  { opts : options.t; nmodes : nat; node_size : nat }.

Record inputs : Type := { mode_shape : np.array2; f_s : np.array }.
Record outputs : Type := { mf : np.array }.
Record d_inputs : Type := { d_f_s : option np.array }.
Record d_outputs : Type := { d_mf : option np.array }.

Definition initialize (o : options.t) : result options.t :=
  Ok (options.declare "get_modal_sizes" options.Undefined o).

(** [self.nmodes, self.node_size = self.options['get_modal_sizes']()] *)
Definition setup (o : options.t) : result self :=
  v ← options.getitem o "get_modal_sizes";
  match v with
  | options.PyGetSizes call =>
      Ok {| opts := o; nmodes := fst (call tt); node_size := snd (call tt) |}
  | _ => Raise TypeError
  end.

(** [np.sum(inputs['mode_shape'][imode,:] * v[:])] *)
Definition row_dot (i : inputs) (imode : nat) (v : np.array) : result R :=
  row ← np.getitem (mode_shape i) imode;
  p ← np.mul row v;
  Ok (np.sum p).

Definition compute (s : self) (i : inputs) (o : outputs) : result outputs :=
  mf' ← for_range (nmodes s)
          (fun imode buf => x ← row_dot i imode (f_s i); np.setitem buf imode x)
          (np.fill (mf o) 0%R);
  Ok {| mf := mf' |}.

(** The two loops of [compute_jacvec_product], for a loop bound [n]. *)
Definition fwd_loop (n : nat) (i : inputs) (dfs : np.array)
    (dmf : np.array) : result np.array :=
  for_range n
    (fun imode buf =>
       old ← np.getitem buf imode;
       x ← row_dot i imode dfs;
       np.setitem buf imode (old + x)%R)
    dmf.

Definition rev_loop (n : nat) (i : inputs) (dmf : np.array)
    (dfs : np.array) : result np.array :=
  for_range n
    (fun imode buf =>
       row ← np.getitem (mode_shape i) imode;
       x ← np.getitem dmf imode;
       np.iadd buf (np.scale row x))
    dfs.

(** [range(self.options['nmodes'])] *)
Definition loop_bound (s : self) : result nat :=
  v ← options.getitem (opts s) "nmodes"; options.as_int v.

Definition jacvec_fwd (s : self) (i : inputs) (d_i : d_inputs)
    (d_o : d_outputs) : result d_outputs :=
  match d_mf d_o, d_f_s d_i with
  | Some dmf, Some dfs =>
      n ← loop_bound s;
      dmf' ← fwd_loop n i dfs dmf;
      Ok {| d_mf := Some dmf' |}
  | _, _ => Ok d_o
  end.

Definition jacvec_rev (s : self) (i : inputs) (d_i : d_inputs)
    (d_o : d_outputs) : result d_inputs :=
  match d_mf d_o, d_f_s d_i with
  | Some dmf, Some dfs =>
      n ← loop_bound s;
      dfs' ← rev_loop n i dmf dfs;
      Ok {| d_f_s := Some dfs' |}
  | _, _ => Ok d_i
  end.

Definition compute_jacvec_product (s : self) (i : inputs) (d_i : d_inputs)
    (d_o : d_outputs) (mode : string) : result (d_inputs * d_outputs) :=
  d_o ← (if decide (mode = "fwd") then jacvec_fwd s i d_i d_o else Ok d_o);
  d_i ← (if decide (mode = "rev") then jacvec_rev s i d_i d_o else Ok d_i);
  Ok (d_i, d_o).

End ModalForces.

(** ** ModalDisplacements: modal displacements to nodal displacements *)

Module ModalDisplacements.

Record self : Type :=
  { opts : options.t; nmodes : nat; node_size : nat }.

Record inputs : Type := { mode_shape : np.array2; z : np.array }.
Record outputs : Type := { u_s : np.array }.
Record d_inputs : Type := { d_z : option np.array }.
Record d_outputs : Type := { d_u_s : option np.array }.

Definition initialize (o : options.t) : result options.t :=
  Ok (options.declare "get_modal_sizes" options.Undefined o).

Definition setup (o : options.t) : result self :=
  v ← options.getitem o "get_modal_sizes";
  match v with
  | options.PyGetSizes call =>
      Ok {| opts := o; nmodes := fst (call tt); node_size := snd (call tt) |}
  | _ => Raise TypeError
  end.

(** [buf[:] += inputs['mode_shape'][imode,:] * v[imode]] for [imode < n]. *)
Definition expand_loop (n : nat) (i : inputs) (v : np.array)
    (buf : np.array) : result np.array :=
  for_range n
    (fun imode buf =>
       row ← np.getitem (mode_shape i) imode;
       x ← np.getitem v imode;
       np.iadd buf (np.scale row x))
    buf.

Definition compute (s : self) (i : inputs) (o : outputs) : result outputs :=
  u' ← expand_loop (nmodes s) i (z i) (np.fill (u_s o) 0%R);
  Ok {| u_s := u' |}.

(** [buf[imode] += np.sum(inputs['mode_shape'][imode,:] * v[:])]
    for [imode < n]. *)
Definition rev_loop (n : nat) (i : inputs) (dus : np.array)
    (dz : np.array) : result np.array :=
  for_range n
    (fun imode buf =>
       old ← np.getitem buf imode;
       row ← np.getitem (mode_shape i) imode;
       p ← np.mul row dus;
       np.setitem buf imode (old + np.sum p)%R)
    dz.

Definition loop_bound (s : self) : result nat :=
  v ← options.getitem (opts s) "nmodes"; options.as_int v.

Definition jacvec_fwd (s : self) (i : inputs) (d_i : d_inputs)
    (d_o : d_outputs) : result d_outputs :=
  match d_u_s d_o, d_z d_i with
  | Some dus, Some dz =>
      n ← loop_bound s;
      dus' ← expand_loop n i dz dus;
      Ok {| d_u_s := Some dus' |}
  | _, _ => Ok d_o
  end.

Definition jacvec_rev (s : self) (i : inputs) (d_i : d_inputs)
    (d_o : d_outputs) : result d_inputs :=
  match d_u_s d_o, d_z d_i with
  | Some dus, Some dz =>
      n ← loop_bound s;
      dz' ← rev_loop n i dus dz;
      Ok {| d_z := Some dz' |}
  | _, _ => Ok d_i
  end.

Definition compute_jacvec_product (s : self) (i : inputs) (d_i : d_inputs)
    (d_o : d_outputs) (mode : string) : result (d_inputs * d_outputs) :=
  d_o ← (if decide (mode = "fwd") then jacvec_fwd s i d_i d_o else Ok d_o);
  d_i ← (if decide (mode = "rev") then jacvec_rev s i d_i d_o else Ok d_i);
  Ok (d_i, d_o).

End ModalDisplacements.

(** ** ModalDecomp: the modal basis of the finite-element model *)

Module ModalDecomp.

Record self : Type :=
  { tacs : TACS.assembler;
    ndv : nat;
    nmodes : nat;
    xpts : np.array;
    ndof : nat }.

Record inputs : Type := { dv_struct : np.array }.

Record outputs : Type :=
  { mode_shape : np.array2;
    modal_mass : np.array;
    modal_stiffness : np.array;
    x_s0 : np.array }.

Definition initialize (o : options.t) : result options.t :=
  let o := options.declare "get_tacs" options.PyNone o in
  let o := options.declare "get_ndv" options.PyNone o in
  let o := options.declare "nmodes" (options.PyInt 1) o in
  options.setitem o "distributed" (options.PyBool true).

(** [int(vec.size / (node_size/3))], on exact numbers. The two float
    quotients of the source give the same number when [node_size] is a
    multiple of three, as the size of a node vector is, and
    [vec.size * node_size] is below [2^53]. *)
Definition dof_per_node (vec_size node_size : nat) : result nat :=
  if decide (node_size = 0) then Raise ZeroDivisionError
  else Ok (3 * vec_size / node_size).

Definition setup (o : options.t) : result self :=
  get_tacs ← options.getitem o "get_tacs";
  get_ndv ← options.getitem o "get_ndv";
  n ← options.getitem o "nmodes";
  match get_tacs, get_ndv, n with
  | options.PyGetTacs get_tacs, options.PyGetInt get_ndv, options.PyInt n =>
      let t := get_tacs tt in
      d ← dof_per_node (TACS.vec_size t) (length (TACS.nodes t));
      Ok {| tacs := t; ndv := get_ndv tt; nmodes := n;
            xpts := TACS.nodes t; ndof := d |}
  | _, _, _ => Raise TypeError
  end.

(** [sigma = 2.0*np.pi*sigma_hz] with [sigma_hz = 1.0], and [eig_tol]. *)
Definition sigma : R := (2 * PI * 1)%R.
Definition eig_tol : R := (/ 10 ^ 12)%R.

(** [outputs['mode_shape'][imode,idof::3] = vec[idof::ndof]]
    for [idof] in [range(3)]. *)
Definition scatter_mode (s : self) (imode : nat) (v : np.array)
    (shape : np.array2) : result np.array2 :=
  for_range 3
    (fun idof shape =>
       src ← np.getslice v idof (ndof s);
       row ← np.getitem shape imode;
       row' ← np.setslice row idof 3 src;
       np.setitem shape imode row')
    shape.

(** One turn of the loop over the modes. *)
Definition store_mode (s : self) (sol : nat -> TACS.eigenpair)
    (imode : nat) (o : outputs) : result outputs :=
  let p := sol imode in
  mass ← np.setitem (modal_mass o) imode 1%R;
  stiff ← np.setitem (modal_stiffness o) imode (TACS.eig p);
  shape ← scatter_mode s imode (TACS.vec p) (mode_shape o);
  Ok {| mode_shape := shape; modal_mass := mass;
        modal_stiffness := stiff; x_s0 := x_s0 o |}.

Definition compute (s : self) (i : inputs) (o : outputs) : result outputs :=
  sol ← TACS.frequency_analysis (tacs s) (dv_struct i) sigma (nmodes s)
          eig_tol;
  x ← np.assign (x_s0 o) (xpts s);
  for_range (nmodes s) (store_mode s sol)
    {| mode_shape := mode_shape o; modal_mass := modal_mass o;
       modal_stiffness := modal_stiffness o; x_s0 := x |}.

End ModalDecomp.

(** ** ModalStructAssembler: the components and their connections *)

Module ModalStructAssembler.

Record self : Type :=
  { nmodes : nat; nnodes : nat; ndv : nat; tacs : TACS.assembler }.

Definition get_ndv (s : self) (_ : unit) : nat := ndv s.
Definition get_tacs (s : self) (_ : unit) : TACS.assembler := tacs s.
Definition get_modal_sizes (s : self) (_ : unit) : nat * nat :=
  (nmodes s, nnodes s * 3).

(** [ModalDecomp(get_tacs=..., get_ndv=..., nmodes=...)] of
    [add_model_components]. *)
Definition struct_modal_decomp (framework : options.t) (s : self)
    : result ModalDecomp.self :=
  o ← options.instantiate framework ModalDecomp.initialize
        [("get_tacs", options.PyGetTacs (get_tacs s));
         ("get_ndv", options.PyGetInt (get_ndv s));
         ("nmodes", options.PyInt (nmodes s))];
  ModalDecomp.setup o.

(** The three components of [add_fsi_components]. *)
Definition modal_forces (framework : options.t) (s : self)
    : result ModalForces.self :=
  o ← options.instantiate framework ModalForces.initialize
        [("get_modal_sizes", options.PyGetSizes (get_modal_sizes s))];
  ModalForces.setup o.

Definition modal_solver (framework : options.t) (s : self)
    : result options.t :=
  options.instantiate framework ModalSolver.initialize
    [("nmodes", options.PyInt (nmodes s))].

Definition modal_disps (framework : options.t) (s : self)
    : result ModalDisplacements.self :=
  o ← options.instantiate framework ModalDisplacements.initialize
        [("get_modal_sizes", options.PyGetSizes (get_modal_sizes s))];
  ModalDisplacements.setup o.

(** The output buffers of the group [struct]. *)
Record struct_outputs : Type :=
  { mf : np.array; z : np.array; u_s : np.array }.

(** One evaluation of the group [struct]: [modal_forces], [modal_solver]
    and [modal_disps] in the order in which they were added, their inputs
    fed as [connect_inputs] connects them ([mode_shape] to both projections,
    [modal_stiffness] to [k], [mf] and [z] down the chain). *)
Definition run_struct (forces : ModalForces.self)
    (disps : ModalDisplacements.self)
    (mode_shape : np.array2) (modal_stiffness f_s : np.array)
    (o : struct_outputs) : result struct_outputs :=
  o1 ← ModalForces.compute forces
         {| ModalForces.mode_shape := mode_shape; ModalForces.f_s := f_s |}
         {| ModalForces.mf := mf o |};
  o2 ← ModalSolver.compute
         {| ModalSolver.k := modal_stiffness;
            ModalSolver.mf := ModalForces.mf o1 |}
         {| ModalSolver.z := z o |};
  o3 ← ModalDisplacements.compute disps
         {| ModalDisplacements.mode_shape := mode_shape;
            ModalDisplacements.z := ModalSolver.z o2 |}
         {| ModalDisplacements.u_s := u_s o |};
  Ok {| mf := ModalForces.mf o1; z := ModalSolver.z o2;
        u_s := ModalDisplacements.u_s o3 |}.

End ModalStructAssembler.

(** ** ModalStructAssembler as an object

    The attributes that [get_tacs] sets on its first call, and what the
    builder methods write: the dictionary [connection_srcs], the
    subsystems of the groups and the connections of the model. The mesh
    loader is a TACS object: it enters as the function [loader]; the model
    is an OpenMDAO group: [connect] is its method, with the two checks that
    it makes at the call. *)

Module Assembler.

(** Reading an attribute that was never assigned raises
    [AttributeError]. *)
Inductive attr_result (A : Type) : Type :=
| Value (a : A)
| AttributeError (attr : string).
Arguments Value {A} a.
Arguments AttributeError {A} attr.

(** [TACS.MeshLoader(comm)] after [scanBDFFile(mesh_file)]: what
    [createTACS(ndof)] returns. *)
Record mesh : Type := { createTACS : nat -> TACS.assembler }.

Record self : Type :=
  { add_elements : mesh -> nat * nat;
    mesh_file : string;
    nmodes : nat;
    tacs : option TACS.assembler;
    comm : option nat;
    ndof : option nat;
    ndv : option nat;
    nnodes : option nat }.

(** [__init__]: the three entries of [solver_options], and
    [self.tacs = None]. *)
Definition init (add_elements : mesh -> nat * nat) (mesh_file : string)
    (nmodes : nat) : self :=
  {| add_elements := add_elements; mesh_file := mesh_file; nmodes := nmodes;
     tacs := None; comm := None; ndof := None; ndv := None; nnodes := None |}.

Definition get_tacs (loader : nat -> string -> mesh) (s : self) (c : nat)
    : TACS.assembler * self :=
  match tacs s with
  | Some t => (t, s)
  | None =>
      let m := loader c (mesh_file s) in
      let '(dof, dv) := add_elements s m in
      let t := createTACS m dof in
      (t, {| add_elements := add_elements s; mesh_file := mesh_file s;
             nmodes := nmodes s; tacs := Some t; comm := Some c;
             ndof := Some dof; ndv := Some dv;
             nnodes := Some (length (TACS.nodes t) / 3) |})
  end.

Definition get_ndv (s : self) : attr_result nat :=
  match ndv s with
  | Some n => Value n
  | None => AttributeError "ndv"
  end.

Definition get_ndof (s : self) : nat := 3.

Definition get_nnodes (s : self) : attr_result nat :=
  match nnodes s with
  | Some n => Value n
  | None => AttributeError "nnodes"
  end.

Definition get_modal_sizes (s : self) : attr_result (nat * nat) :=
  match nnodes s with
  | Some n => Value (nmodes s, n * 3)
  | None => AttributeError "nnodes"
  end.

(** An OpenMDAO group: its name and the names of its subsystems, each with
    the names of its own subsystems. *)
Record group : Type :=
  { name : string; subsystems : list (string * list string) }.

Definition add_subsystem (g : group) (child : string)
    (children : list string) : group :=
  {| name := name g; subsystems := subsystems g ++ [(child, children)] |}.

Definition add_model_components (model : group)
    (connection_srcs : gmap string string) : group * gmap string string :=
  let model := add_subsystem model "struct_modal_decomp" [] in
  let srcs := <["x_s0" := "struct_modal_decomp.x_s0"]> connection_srcs in
  let srcs := <["mode_shape" := "struct_modal_decomp.mode_shape"]> srcs in
  let srcs := <["modal_mass" := "struct_modal_decomp.modal_mass"]> srcs in
  let srcs :=
    <["modal_stiffness" := "struct_modal_decomp.modal_stiffness"]> srcs in
  (model, srcs).

(** [scenario.name+'.'+fsi_group.name+suffix] *)
Definition path (scenario fsi_group : group) (suffix : string) : string :=
  ((name scenario +:+ ".") +:+ name fsi_group) +:+ suffix.

Definition add_fsi_components (scenario fsi_group : group)
    (connection_srcs : gmap string string) : group * gmap string string :=
  let fsi_group :=
    add_subsystem fsi_group "struct"
      ["modal_forces"; "modal_solver"; "modal_disps"] in
  let srcs :=
    <["mf" := path scenario fsi_group ".struct.modal_forces.mf"]>
      connection_srcs in
  let srcs :=
    <["z" := path scenario fsi_group ".struct.modal_solver.z"]> srcs in
  let srcs :=
    <["u_s" := path scenario fsi_group ".struct.modal_disps.u_s"]> srcs in
  (fsi_group, srcs).

(** [connection_srcs[key]] *)
Definition src (connection_srcs : gmap string string) (key : string)
    : result string :=
  match connection_srcs !! key with
  | Some v => Ok v
  | None => Raise (KeyError key)
  end.

(** [name.rsplit('.', 1)[0]], when [name] has a dot: [name] without its
    last component. *)
Fixpoint rsplit_head (name : string) : option string :=
  match name with
  | EmptyString => None
  | String c rest =>
      match rsplit_head rest with
      | Some head => Some (String c head)
      | None =>
          if String.eqb (String c EmptyString) "." then Some EmptyString
          else None
      end
  end.

(** [name.rsplit('.', 1)[0]]: a name without a dot is its own head. *)
Definition parent (name : string) : string :=
  default name (rsplit_head name).

Definition already_connected (tgt_name srcname : string) : exn :=
  RuntimeError
    ("Input '" +:+ tgt_name +:+ "' is already connected to '" +:+ srcname
     +:+ "'.").

Definition same_system (src_name tgt_name : string) : exn :=
  RuntimeError
    ("Output and input are in the same System for connection from '"
     +:+ src_name +:+ "' to '" +:+ tgt_name +:+ "'.").

(** [model.connect(src_name, tgt_name)] of OpenMDAO's [Group], for one
    target and without source indices; a list of targets is connected one
    target after the other. [connections] is the dictionary of the
    connections made by [connect] so far, from the target to its source:
    an input that is connected already is refused, and so is a connection
    within one system. *)
Definition connect (connections : gmap string string)
    (src_name tgt_name : string) : result (gmap string string) :=
  match connections !! tgt_name with
  | Some srcname => Raise (already_connected tgt_name srcname)
  | None =>
      if decide (parent src_name = parent tgt_name)
      then Raise (same_system src_name tgt_name)
      else Ok (<[tgt_name := src_name]> connections)
  end.

(** [connect_inputs], on the connections of the model. *)
Definition connect_inputs (connections : gmap string string)
    (scenario fsi_group : group) (connection_srcs : gmap string string)
    : result (gmap string string) :=
  let forces_path := path scenario fsi_group ".struct.modal_forces" in
  let solver_path := path scenario fsi_group ".struct.modal_solver" in
  let disps_path := path scenario fsi_group ".struct.modal_disps" in
  dv ← src connection_srcs "dv_struct";
  connections ← connect connections dv "struct_modal_decomp.dv_struct";
  f ← src connection_srcs "f_s";
  connections ← connect connections f (forces_path +:+ ".f_s");
  mf ← src connection_srcs "mf";
  connections ← connect connections mf (solver_path +:+ ".mf");
  z ← src connection_srcs "z";
  connections ← connect connections z (disps_path +:+ ".z");
  shape ← src connection_srcs "mode_shape";
  connections ← connect connections shape (forces_path +:+ ".mode_shape");
  shape ← src connection_srcs "mode_shape";
  connections ← connect connections shape (disps_path +:+ ".mode_shape");
  k ← src connection_srcs "modal_stiffness";
  connect connections k (solver_path +:+ ".k").

End Assembler.

(** ** The formulas of the specification

    [Sigma n f] is the sum of [f j] over [j < n]; [entry a j] is [a[j]] and
    [entry2 m i j] is [m[i,j]]; [dot a b] is the inner product. *)

Fixpoint Sigma (n : nat) (f : nat -> R) : R :=
  match n with
  | O => 0%R
  | S n' => (Sigma n' f + f n')%R
  end.

Definition entry (a : np.array) (j : nat) : R := default 0%R (a !! j).

(** [m[i,:]], empty when there is no such row. *)
Definition row_of (m : np.array2) (i : nat) : np.array := default [] (m !! i).

Definition entry2 (m : np.array2) (i j : nat) : R := entry (row_of m i) j.

Definition dot (a b : np.array) : R := np.sum (zip_with Rmult a b).

(** [m] has [r] rows of [c] entries. *)
Definition has_shape (m : np.array2) (r c : nat) : Prop :=
  length m = r /\ Forall (fun row => length row = c) m.

(** * Properties *)

(** ** Loops *)

Section Loops.
Context {St : Type}.
Implicit Types (body : nat -> St -> result St) (P : nat -> St -> Prop).

(** A loop whose body keeps an invariant and returns under it returns, and
    the invariant holds at the end. *)
Lemma for_range_from_total P body i n s :
  P i s ->
  (forall j t, i <= j < i + n -> P j t ->
     exists t', body j t = Ok t' /\ P (S j) t') ->
  exists s', for_range_from i n body s = Ok s' /\ P (i + n) s'.
Proof.
  revert i s. induction n as [|n IH]; intros i s Hs Hbody; simpl.
  - exists s. by rewrite Nat.add_0_r.
  - destruct (Hbody i s) as (t & -> & Ht); [lia | done |]. simpl.
    destruct (IH (S i) t) as (s' & Hrun & Hs'); [done | |].
    + intros j u Hj. apply Hbody. lia.
    + exists s'. split; [done |]. by replace (i + S n) with (S i + n) by lia.
Qed.

(** Partial correctness: when the loop returns, the invariant holds. *)
Lemma for_range_from_inv P body i n s s' :
  P i s ->
  (forall j t t', i <= j < i + n -> P j t -> body j t = Ok t' -> P (S j) t') ->
  for_range_from i n body s = Ok s' ->
  P (i + n) s'.
Proof.
  revert i s. induction n as [|n IH]; intros i s Hs Hbody; simpl.
  - intros [= <-]. by rewrite Nat.add_0_r.
  - destruct (body i s) as [t|e] eqn:Hbi; simpl; [|done].
    intros Hrun. replace (i + S n) with (S i + n) by lia.
    apply (IH (S i) t); [| |done].
    + apply (Hbody i s); [lia|done..].
    + intros j u u' Hj. apply Hbody. lia.
Qed.

Lemma for_range_total P body n s :
  P 0 s ->
  (forall j t, j < n -> P j t -> exists t', body j t = Ok t' /\ P (S j) t') ->
  exists s', for_range n body s = Ok s' /\ P n s'.
Proof.
  intros Hs Hbody.
  apply (for_range_from_total P body 0 n s Hs).
  intros j t Hj. apply Hbody. lia.
Qed.

Lemma for_range_inv P body n s s' :
  P 0 s ->
  (forall j t t', j < n -> P j t -> body j t = Ok t' -> P (S j) t') ->
  for_range n body s = Ok s' ->
  P n s'.
Proof.
  intros Hs Hbody.
  apply (for_range_from_inv P body 0 n s s' Hs).
  intros j t t' Hj. apply Hbody. lia.
Qed.

(** Two bodies that agree on the range give the same loop. *)
Lemma for_range_from_ext body1 body2 i n s :
  (forall j t, i <= j < i + n -> body1 j t = body2 j t) ->
  for_range_from i n body1 s = for_range_from i n body2 s.
Proof.
  revert i s. induction n as [|n IH]; intros i s Hb; simpl; [done|].
  rewrite Hb by lia. destruct (body2 i s); simpl; [|done].
  apply IH. intros j t Hj. apply Hb. lia.
Qed.

Lemma for_range_ext body1 body2 n s :
  (forall j t, j < n -> body1 j t = body2 j t) ->
  for_range n body1 s = for_range n body2 s.
Proof.
  intros Hb. apply for_range_from_ext. intros j t Hj. apply Hb. lia.
Qed.

End Loops.

(** ** Sums and entries *)

Section Sums.
Local Open Scope R_scope.

Lemma Sigma_ext n f g :
  (forall j, (j < n)%nat -> f j = g j) -> Sigma n f = Sigma n g.
Proof.
  induction n as [|n IH]; intros H; simpl; [done|].
  rewrite IH, H; [done | lia |]. intros j Hj. apply H. lia.
Qed.

Lemma Sigma_zero n : Sigma n (fun _ => 0) = 0.
Proof. induction n as [|n IH]; simpl; [done|]. rewrite IH. lra. Qed.

Lemma Sigma_plus n f g :
  Sigma n (fun j => f j + g j) = Sigma n f + Sigma n g.
Proof. induction n as [|n IH]; simpl; [lra|]. rewrite IH. lra. Qed.

Lemma Sigma_scal n c f : Sigma n (fun j => c * f j) = c * Sigma n f.
Proof. induction n as [|n IH]; simpl; [lra|]. rewrite IH. lra. Qed.

(** The order of a double sum does not matter. *)
Lemma Sigma_swap n m (f : nat -> nat -> R) :
  Sigma n (fun i => Sigma m (fun j => f i j))
  = Sigma m (fun j => Sigma n (fun i => f i j)).
Proof.
  induction n as [|n IH]; simpl.
  - by rewrite Sigma_zero.
  - by rewrite IH, Sigma_plus.
Qed.

Lemma sum_snoc (a : np.array) x : np.sum (a ++ [x]) = np.sum a + x.
Proof. unfold np.sum. by rewrite fold_left_app. Qed.

Lemma entry_app_l (a b : np.array) j :
  (j < length a)%nat -> entry (a ++ b) j = entry a j.
Proof. intros H. unfold entry. by rewrite lookup_app_l. Qed.

Lemma entry_snoc (a : np.array) x : entry (a ++ [x]) (length a) = x.
Proof. unfold entry. by rewrite list_lookup_middle. Qed.

(** [np.sum] is the sum of the entries. *)
Lemma sum_Sigma (a : np.array) : np.sum a = Sigma (length a) (entry a).
Proof.
  induction a as [|x a IH] using rev_ind; [done|].
  rewrite sum_snoc, length_app, Nat.add_1_r. simpl.
  rewrite entry_snoc, IH. f_equal.
  apply Sigma_ext. intros j Hj. by rewrite entry_app_l.
Qed.

Lemma entry_lookup (a : np.array) j x : a !! j = Some x -> entry a j = x.
Proof. unfold entry. by intros ->. Qed.

Lemma lookup_entry (a : np.array) j :
  (j < length a)%nat -> a !! j = Some (entry a j).
Proof.
  intros H. unfold entry.
  destruct (lookup_lt_is_Some_2 a j H) as [x ->]. done.
Qed.

Lemma entry_zip_with f (a b : np.array) j :
  (j < length a)%nat -> (j < length b)%nat ->
  entry (zip_with f a b) j = f (entry a j) (entry b j).
Proof.
  intros Ha Hb. apply entry_lookup. rewrite lookup_zip_with.
  by rewrite (lookup_entry a j Ha), (lookup_entry b j Hb).
Qed.

Lemma entry_map f (a : np.array) j :
  (j < length a)%nat -> entry (map f a) j = f (entry a j).
Proof.
  intros Ha. apply entry_lookup.
  change (map f a) with (f <$> a).
  by rewrite list_lookup_fmap, (lookup_entry a j Ha).
Qed.

Lemma entry_replicate n x j : (j < n)%nat -> entry (replicate n x) j = x.
Proof. intros H. apply entry_lookup. by apply lookup_replicate_2. Qed.

Lemma entry_insert_eq (a : np.array) j x :
  (j < length a)%nat -> entry (<[j:=x]> a) j = x.
Proof. intros H. apply entry_lookup. by apply list_lookup_insert_eq. Qed.

Lemma entry_insert_ne (a : np.array) i j x :
  i <> j -> entry (<[i:=x]> a) j = entry a j.
Proof. intros H. unfold entry. by rewrite list_lookup_insert_ne. Qed.

(** Two arrays of the same length with the same entries are equal. *)
Lemma array_eq (a b : np.array) :
  length a = length b ->
  (forall j, (j < length a)%nat -> entry a j = entry b j) -> a = b.
Proof.
  intros Hlen H. apply list_eq. intros j.
  destruct (decide (j < length a)%nat) as [Hj|Hj].
  - rewrite (lookup_entry a j Hj), (lookup_entry b j) by lia. f_equal. auto.
  - rewrite !lookup_ge_None_2; [done | lia..].
Qed.

Lemma dot_Sigma (a b : np.array) :
  length a = length b ->
  dot a b = Sigma (length a) (fun j => entry a j * entry b j).
Proof.
  intros Hlen. unfold dot. rewrite sum_Sigma.
  rewrite length_zip_with, <- Hlen, Nat.min_id.
  apply Sigma_ext. intros j Hj. apply entry_zip_with; lia.
Qed.

End Sums.

(** ** NumPy operations on arrays of matching shapes *)

Section Shapes.
Local Open Scope R_scope.

Lemma broadcast_to_same n (v : np.array) :
  length v = n -> np.broadcast_to n v = Ok v.
Proof. intros H. unfold np.broadcast_to. by rewrite decide_True. Qed.

Lemma binop_same f (a b : np.array) :
  length a = length b -> np.binop f a b = Ok (zip_with f a b).
Proof. intros H. unfold np.binop. by rewrite decide_True. Qed.

Lemma assign_same (buf v : np.array) :
  length v = length buf -> np.assign buf v = Ok v.
Proof. apply broadcast_to_same. Qed.

Lemma iadd_same (buf v : np.array) :
  length v = length buf -> np.iadd buf v = Ok (zip_with Rplus buf v).
Proof. intros H. unfold np.iadd. by rewrite broadcast_to_same. Qed.

Lemma getitem_lt (a : np.array) j :
  (j < length a)%nat -> np.getitem a j = Ok (entry a j).
Proof. intros H. unfold np.getitem. by rewrite lookup_entry. Qed.

Lemma setitem_lt {A} (a : list A) j x :
  (j < length a)%nat -> np.setitem a j x = Ok (<[j:=x]> a).
Proof. intros H. unfold np.setitem. by rewrite decide_True. Qed.

Lemma setitem_Ok {A} (a a' : list A) j x :
  np.setitem a j x = Ok a' -> (j < length a)%nat /\ a' = <[j:=x]> a.
Proof. unfold np.setitem. case_decide; [by intros [= <-] | done]. Qed.

(** No NumPy operation of the model raises [KeyError]. *)
Lemma broadcast_to_exn n v e : np.broadcast_to n v = Raise e -> e = ValueError.
Proof.
  unfold np.broadcast_to. case_decide; [done|].
  destruct v as [|? [|? ?]]; by intros [=].
Qed.

Lemma binop_exn f a b e : np.binop f a b = Raise e -> e = ValueError.
Proof.
  unfold np.binop. case_decide; [done|].
  destruct a as [|? [|? ?]], b as [|? [|? ?]]; by intros [=].
Qed.

Lemma iadd_exn buf v e : np.iadd buf v = Raise e -> e = ValueError.
Proof.
  unfold np.iadd. destruct (np.broadcast_to _ v) eqn:Hb; simpl; [done|].
  intros [= <-]. by apply broadcast_to_exn in Hb.
Qed.

End Shapes.

(** ** ModalSolver *)

Section ModalSolverProps.
Local Open Scope R_scope.
Import ModalSolver.

(** On arrays of one length, [compute] returns the elementwise quotient. *)
Lemma solver_compute_same_length (kv mfv zbuf : np.array) :
  length mfv = length kv -> length zbuf = length kv ->
  compute {| k := kv; mf := mfv |} {| z := zbuf |}
  = Ok {| z := zip_with Rdiv mfv kv |}.
Proof.
  intros Hmf Hz. unfold compute, np.div. simpl.
  rewrite binop_same by done. simpl.
  rewrite assign_same; [done|]. rewrite length_zip_with. lia.
Qed.

(** [compute] reads no option and looks up no name: it can only fail on
    mismatched shapes. *)
Lemma solver_compute_exn i o e : compute i o = Raise e -> e = ValueError.
Proof.
  unfold compute, np.div, np.assign.
  destruct (np.binop _ _ _) eqn:Hq; simpl.
  - destruct (np.broadcast_to _ _) eqn:Hb; simpl; [done|].
    intros [= <-]. by apply broadcast_to_exn in Hb.
  - intros [= <-]. by apply binop_exn in Hq.
Qed.

(** The partial derivatives of [z = mf / k] at a nonzero [k]. *)
Lemma quotient_partial_mf (kx mfx : R) :
  kx <> 0 -> derivable_pt_lim (fun m => m / kx) mfx (1 / kx).
Proof.
  intros Hk.
  apply derivable_pt_lim_ext with (f := (id / fct_cte kx)%F); [done|].
  replace (1 / kx) with ((1 * fct_cte kx mfx - 0 * id mfx) / Rsqr (fct_cte kx mfx)).
  - apply derivable_pt_lim_div;
      [apply derivable_pt_lim_id | apply derivable_pt_lim_const | done].
  - unfold fct_cte, id, Rsqr. by field.
Qed.

Lemma quotient_partial_k (kx mfx : R) :
  kx <> 0 -> derivable_pt_lim (fun x => mfx / x) kx (- mfx / (kx * kx)).
Proof.
  intros Hk.
  apply derivable_pt_lim_ext with (f := (fct_cte mfx / id)%F); [done|].
  replace (- mfx / (kx * kx))
    with ((0 * id kx - 1 * fct_cte mfx kx) / Rsqr (id kx)).
  - apply derivable_pt_lim_div;
      [apply derivable_pt_lim_const | apply derivable_pt_lim_id | done].
  - unfold fct_cte, id, Rsqr. by field.
Qed.

(** [- inputs['mf'] / (inputs['k']**2.0) * seed] on arrays of one length. *)
Lemma dz_dk_times_same (kv mfv seed : np.array) :
  length mfv = length kv -> length seed = length kv ->
  dz_dk_times {| k := kv; mf := mfv |} seed
  = Ok (zip_with Rmult (zip_with Rdiv (np.neg mfv) (np.square kv)) seed).
Proof.
  intros Hmf Hs. unfold dz_dk_times, np.div, np.mul. simpl.
  rewrite binop_same; simpl.
  - rewrite binop_same; [done|].
    rewrite length_zip_with. unfold np.neg, np.square.
    rewrite !length_map. lia.
  - unfold np.neg, np.square. rewrite !length_map. lia.
Qed.

Lemma entry_dz_dk_times (kv mfv seed : np.array) j :
  length mfv = length kv -> length seed = length kv ->
  (j < length kv)%nat ->
  entry (zip_with Rmult (zip_with Rdiv (np.neg mfv) (np.square kv)) seed) j
  = - entry mfv j / (entry kv j * entry kv j) * entry seed j.
Proof.
  intros Hmf Hs Hj. unfold np.neg, np.square.
  rewrite entry_zip_with; [|rewrite length_zip_with, !length_map; lia | lia].
  rewrite entry_zip_with by (rewrite length_map; lia).
  by rewrite !entry_map by lia.
Qed.

Lemma solver_jacvec_fwd_same (kv mfv dk dmf dz : np.array) :
  length mfv = length kv -> length dk = length kv ->
  length dmf = length kv -> length dz = length kv ->
  jacvec_fwd {| k := kv; mf := mfv |}
    {| d_k := Some dk; d_mf := Some dmf |} {| d_z := Some dz |}
  = Ok {| d_z := Some (zip_with Rplus
                         (zip_with Rplus dz (zip_with Rdiv dmf kv))
                         (zip_with Rmult
                            (zip_with Rdiv (np.neg mfv) (np.square kv))
                            dk)) |}.
Proof.
  intros Hmf Hdk Hdmf Hdz. unfold jacvec_fwd, np.div. simpl.
  rewrite binop_same by done. simpl.
  rewrite iadd_same by (rewrite length_zip_with; lia). simpl.
  rewrite dz_dk_times_same by done. simpl.
  rewrite iadd_same; [done|].
  rewrite !length_zip_with. unfold np.neg, np.square.
  rewrite !length_map. lia.
Qed.

Lemma solver_jacvec_rev_same (kv mfv dk dmf dz : np.array) :
  length mfv = length kv -> length dk = length kv ->
  length dmf = length kv -> length dz = length kv ->
  jacvec_rev {| k := kv; mf := mfv |}
    {| d_k := Some dk; d_mf := Some dmf |} {| d_z := Some dz |}
  = Ok {| d_k := Some (zip_with Rplus dk
                         (zip_with Rmult
                            (zip_with Rdiv (np.neg mfv) (np.square kv))
                            dz));
          d_mf := Some (zip_with Rplus dmf (zip_with Rdiv dz kv)) |}.
Proof.
  intros Hmf Hdk Hdmf Hdz. unfold jacvec_rev, np.div. simpl.
  rewrite binop_same by done. simpl.
  rewrite iadd_same by (rewrite length_zip_with; lia). simpl.
  rewrite dz_dk_times_same by done. simpl.
  rewrite iadd_same; [done|].
  rewrite !length_zip_with. unfold np.neg, np.square.
  rewrite !length_map. lia.
Qed.

End ModalSolverProps.

Section ModalSolverClaims.
Local Open Scope R_scope.
Import ModalSolver.

Lemma entry_nonzero (kv : np.array) i :
  Forall (fun x => x <> 0) kv -> (i < length kv)%nat -> entry kv i <> 0.
Proof.
  intros Hall Hi.
  apply (Forall_lookup_1 _ _ _ _ Hall (lookup_entry kv i Hi)).
Qed.

(** C5: for a stiffness vector [k] without a zero entry and a modal force
    vector [mf], both of length [nmodes], the modal equilibrium solve
    returns [z] of length [nmodes] with [z[i] = mf[i] / k[i]]; a negative
    [k[i]] is accepted, and [z[i]] then has the sign opposite to that of
    [mf[i]]. *)
Theorem solve_is_quotient (n : nat) (kv mfv zbuf : np.array) :
  length kv = n -> length mfv = n -> length zbuf = n ->
  Forall (fun x => x <> 0) kv ->
  exists zv,
    compute {| k := kv; mf := mfv |} {| z := zbuf |} = Ok {| z := zv |}
    /\ length zv = n
    /\ forall i, (i < n)%nat ->
         entry zv i = entry mfv i / entry kv i
         /\ (entry kv i < 0 ->
             (0 < entry mfv i -> entry zv i < 0)
             /\ (entry mfv i < 0 -> 0 < entry zv i)).
Proof.
  intros Hk Hmf Hz Hnz. exists (zip_with Rdiv mfv kv).
  split; [apply solver_compute_same_length; lia|].
  split; [rewrite length_zip_with; lia|].
  intros i Hi.
  assert (Hq : entry (zip_with Rdiv mfv kv) i = entry mfv i / entry kv i)
    by (apply entry_zip_with; lia).
  split; [done|]. rewrite Hq. intros Hneg.
  pose proof (Rinv_neg _ Hneg) as Hinv. unfold Rdiv. split; intros; nra.
Qed.

Lemma solve_is_quotient_witness :
  exists zv,
    compute {| k := [1; -2]; mf := [3; 4] |} {| z := [1; 1] |}
    = Ok {| z := zv |}
    /\ length zv = 2%nat
    /\ forall i, (i < 2)%nat ->
         entry zv i = entry [3; 4] i / entry [1; -2] i
         /\ (entry [1; -2] i < 0 ->
             (0 < entry [3; 4] i -> entry zv i < 0)
             /\ (entry [3; 4] i < 0 -> 0 < entry zv i)).
Proof.
  apply (solve_is_quotient 2 [1; -2] [3; 4] [1; 1]);
    [reflexivity | reflexivity | reflexivity |].
  repeat constructor; lra.
Defined.




(** C8: with no zero entry in [k], the forward product adds
    [d(mf[i])/k[i] - mf[i]/k[i]^2 * d(k[i])] to the tangent of [z[i]]; the
    reverse product adds [o(z[i])/k[i]] to [o(mf[i])] and
    [-mf[i]/k[i]^2 * o(z[i])] to [o(k[i])]; the coefficients are the partial
    derivatives of [z = mf/k] in [mf] and in [k]. *)
Theorem solver_jacvec_rules (n : nat) (kv mfv dk dmf dz : np.array) :
  length kv = n -> length mfv = n ->
  length dk = n -> length dmf = n -> length dz = n ->
  Forall (fun x => x <> 0) kv ->
  let inp := {| k := kv; mf := mfv |} in
  let d_i := {| d_k := Some dk; d_mf := Some dmf |} in
  let d_o := {| d_z := Some dz |} in
  (exists dz',
      compute_jacvec_product inp d_i d_o "fwd" = Ok (d_i, {| d_z := Some dz' |})
      /\ length dz' = n
      /\ forall i, (i < n)%nat ->
           entry dz' i
           = entry dz i
             + (entry dmf i / entry kv i
                - entry mfv i / (entry kv i) ^ 2 * entry dk i))
  /\ (exists dk' dmf',
      compute_jacvec_product inp d_i d_o "rev"
      = Ok ({| d_k := Some dk'; d_mf := Some dmf' |}, d_o)
      /\ length dk' = n /\ length dmf' = n
      /\ forall i, (i < n)%nat ->
           entry dmf' i = entry dmf i + entry dz i / entry kv i
           /\ entry dk' i
              = entry dk i + - entry mfv i / (entry kv i) ^ 2 * entry dz i)
  /\ (forall i, (i < n)%nat ->
        derivable_pt_lim (fun m => m / entry kv i) (entry mfv i)
          (1 / entry kv i)
        /\ derivable_pt_lim (fun x => entry mfv i / x) (entry kv i)
             (- entry mfv i / (entry kv i) ^ 2)).
Proof.
  intros Hk Hmf Hdk Hdmf Hdz Hnz inp d_i d_o.
  assert (Hlen : forall (a b : np.array) (f : R -> R -> R),
             length a = n -> length b = n -> length (zip_with f a b) = n)
    by (intros a b f Ha Hb; rewrite length_zip_with; lia).
  assert (Hcoef : length (zip_with Rdiv (np.neg mfv) (np.square kv)) = n)
    by (apply Hlen; unfold np.neg, np.square; rewrite length_map; lia).
  split; [|split].
  - eexists. unfold compute_jacvec_product. simpl.
    unfold inp, d_i, d_o. rewrite solver_jacvec_fwd_same by lia. simpl.
    split; [reflexivity|]. split; [auto|].
    intros i Hi. pose proof (entry_nonzero kv i Hnz ltac:(lia)) as Hki.
    rewrite entry_zip_with by (rewrite Hlen; auto; lia).
    rewrite entry_dz_dk_times by lia.
    rewrite entry_zip_with by (rewrite ?Hlen; auto; lia).
    rewrite entry_zip_with by lia.
    by field.
  - do 2 eexists. unfold compute_jacvec_product. simpl.
    unfold inp, d_i, d_o. rewrite solver_jacvec_rev_same by lia. simpl.
    split; [reflexivity|]. split; [auto|]. split; [auto|].
    intros i Hi. pose proof (entry_nonzero kv i Hnz ltac:(lia)) as Hki.
    split.
    + rewrite entry_zip_with by (rewrite ?Hlen; auto; lia).
      by rewrite entry_zip_with by lia.
    + rewrite entry_zip_with by (rewrite ?Hlen; auto; lia).
      rewrite entry_dz_dk_times by lia.
      by field.
  - intros i Hi. pose proof (entry_nonzero kv i Hnz ltac:(lia)) as Hki.
    split; [by apply quotient_partial_mf|].
    replace (- entry mfv i / entry kv i ^ 2)
      with (- entry mfv i / (entry kv i * entry kv i)) by (by field).
    by apply quotient_partial_k.
Qed.

Lemma solver_jacvec_rules_witness :
  let kv := [2; -4] in
  let mfv := [3; 1] in
  let dk := [1; 0] in
  let dmf := [0; 1] in
  let dz := [0; 0] in
  let inp := {| k := kv; mf := mfv |} in
  let d_i := {| d_k := Some dk; d_mf := Some dmf |} in
  let d_o := {| d_z := Some dz |} in
  (exists dz',
      compute_jacvec_product inp d_i d_o "fwd" = Ok (d_i, {| d_z := Some dz' |})
      /\ length dz' = 2%nat
      /\ forall i, (i < 2)%nat ->
           entry dz' i
           = entry dz i
             + (entry dmf i / entry kv i
                - entry mfv i / (entry kv i) ^ 2 * entry dk i))
  /\ (exists dk' dmf',
      compute_jacvec_product inp d_i d_o "rev"
      = Ok ({| d_k := Some dk'; d_mf := Some dmf' |}, d_o)
      /\ length dk' = 2%nat /\ length dmf' = 2%nat
      /\ forall i, (i < 2)%nat ->
           entry dmf' i = entry dmf i + entry dz i / entry kv i
           /\ entry dk' i
              = entry dk i + - entry mfv i / (entry kv i) ^ 2 * entry dz i)
  /\ (forall i, (i < 2)%nat ->
        derivable_pt_lim (fun m => m / entry kv i) (entry mfv i)
          (1 / entry kv i)
        /\ derivable_pt_lim (fun x => entry mfv i / x) (entry kv i)
             (- entry mfv i / (entry kv i) ^ 2)).
Proof.
  apply (solver_jacvec_rules 2 [2; -4] [3; 1] [1; 0] [0; 1] [0; 0]);
    [reflexivity | reflexivity | reflexivity | reflexivity | reflexivity |].
  repeat constructor; lra.
Defined.

End ModalSolverClaims.

(** ** The two loops over the rows of [mode_shape] *)

Section RowLoops.
Local Open Scope R_scope.
Context (ms : np.array2) (r c : nat) (Hshape : has_shape ms r c).

Local Abbreviation row := (row_of ms).

Lemma getitem_row i : (i < r)%nat -> np.getitem ms i = Ok (row i).
Proof using Hshape.
  intros Hi. destruct Hshape as [Hlen _]. unfold np.getitem, row_of.
  destruct (lookup_lt_is_Some_2 ms i) as [x ->]; [lia | done].
Qed.

Lemma length_row i : (i < r)%nat -> length (row i) = c.
Proof using Hshape.
  intros Hi. destruct Hshape as [Hlen Hall]. unfold row_of.
  destruct (lookup_lt_is_Some_2 ms i) as [x Hx]; [lia|]. rewrite Hx. simpl.
  apply (Forall_lookup_1 _ _ _ _ Hall Hx).
Qed.

Lemma entry_row i j : entry (row i) j = entry2 ms i j.
Proof. done. Qed.

(** [np.sum(mode_shape[i,:] * v[:])] is the sum of the products. *)
Lemma row_times_sum i (v : np.array) :
  (i < r)%nat -> length v = c ->
  exists p, np.mul (row i) v = Ok p
    /\ np.sum p = Sigma c (fun j => entry2 ms i j * entry v j).
Proof using Hshape.
  intros Hi Hv. pose proof (length_row i Hi) as Hrow.
  exists (zip_with Rmult (row i) v). split.
  - unfold np.mul. apply binop_same. lia.
  - change (np.sum (zip_with Rmult (row i) v)) with (dot (row i) v).
    rewrite dot_Sigma, Hrow by lia. done.
Qed.

(** The loop [buf[i] += np.sum(mode_shape[i,:] * v[:])], [i < n]. *)
Lemma dot_loop_spec (body : nat -> np.array -> result np.array)
    (v buf : np.array) n :
  (forall i b, (i < r)%nat -> length b = r ->
     body i b
     = Ok (<[i := entry b i + Sigma c (fun j => entry2 ms i j * entry v j)]> b)) ->
  length buf = r -> (n <= r)%nat ->
  exists buf',
    for_range n body buf = Ok buf'
    /\ length buf' = r
    /\ (forall i, (i < n)%nat ->
          entry buf' i
          = entry buf i + Sigma c (fun j => entry2 ms i j * entry v j))
    /\ (forall i, (n <= i)%nat -> entry buf' i = entry buf i).
Proof.
  intros Hbody Hbuf Hn.
  apply (for_range_total
    (fun m b => length b = r
      /\ (forall i, (i < m)%nat ->
            entry b i
            = entry buf i + Sigma c (fun j => entry2 ms i j * entry v j))
      /\ (forall i, (m <= i)%nat -> entry b i = entry buf i))).
  - split; [done|]. split; [intros; lia | done].
  - intros m b Hm (Hb & Hlo & Hhi). eexists. split; [apply Hbody; lia|].
    split; [by rewrite length_insert|]. split.
    + intros i Hi. destruct (decide (i = m)) as [->|Hne].
      * rewrite entry_insert_eq by lia. by rewrite Hhi by lia.
      * rewrite entry_insert_ne by done. apply Hlo. lia.
    + intros i Hi. rewrite entry_insert_ne by lia. apply Hhi. lia.
Qed.

(** The loop [buf[:] += mode_shape[i,:] * v[i]], [i < n]. *)
Lemma axpy_loop_spec (v buf : np.array) n :
  length v = r -> length buf = c -> (n <= r)%nat ->
  exists buf',
    for_range n
      (fun imode b =>
         row ← np.getitem ms imode;
         x ← np.getitem v imode;
         np.iadd b (np.scale row x))
      buf = Ok buf'
    /\ length buf' = c
    /\ forall j, (j < c)%nat ->
         entry buf' j
         = entry buf j + Sigma n (fun i => entry2 ms i j * entry v i).
Proof using Hshape.
  intros Hv Hbuf Hn.
  apply (for_range_total
    (fun m b => length b = c
      /\ forall j, (j < c)%nat ->
           entry b j
           = entry buf j + Sigma m (fun i => entry2 ms i j * entry v i))).
  - split; [done|]. intros j Hj. simpl. lra.
  - intros m b Hm (Hb & Hent).
    pose proof (length_row m ltac:(lia)) as Hrow.
    exists (zip_with Rplus b (np.scale (row m) (entry v m))).
    rewrite getitem_row by lia. simpl.
    rewrite getitem_lt by lia. simpl.
    assert (Hsc : length (np.scale (row m) (entry v m)) = c)
      by (unfold np.scale; by rewrite length_map).
    rewrite iadd_same by lia.
    split; [done|]. split; [rewrite length_zip_with; lia|].
    intros j Hj. rewrite entry_zip_with by lia.
    unfold np.scale. rewrite entry_map by lia.
    rewrite Hent by done. simpl. rewrite entry_row. lra.
Qed.

End RowLoops.

(** ** ModalForces *)

Section ModalForcesProps.
Local Open Scope R_scope.
Import ModalForces.

Lemma forces_row_dot (ms : np.array2) (fs v : np.array) r c i :
  has_shape ms r c -> (i < r)%nat -> length v = c ->
  row_dot {| mode_shape := ms; f_s := fs |} i v
  = Ok (Sigma c (fun j => entry2 ms i j * entry v j)).
Proof.
  intros Hshape Hi Hv. unfold row_dot. simpl.
  rewrite (getitem_row ms r c Hshape) by done. simpl.
  destruct (row_times_sum ms r c Hshape i v Hi Hv) as (p & Hp & Hsum).
  rewrite Hp. simpl. by rewrite Hsum.
Qed.

(** [compute] on arrays of the declared shapes: the projection
    [mf[i] = sum_j mode_shape[i,j] * f_s[j]]. *)
Lemma forces_compute_spec (s : self) (ms : np.array2) (fs buf : np.array) :
  has_shape ms (nmodes s) (node_size s) ->
  length fs = node_size s -> length buf = nmodes s ->
  exists mfv,
    compute s {| mode_shape := ms; f_s := fs |} {| mf := buf |}
    = Ok {| mf := mfv |}
    /\ length mfv = nmodes s
    /\ forall i, (i < nmodes s)%nat ->
         entry mfv i = Sigma (node_size s) (fun j => entry2 ms i j * entry fs j).
Proof.
  intros Hshape Hfs Hbuf. unfold compute. simpl.
  destruct (for_range_total
    (fun m b => length b = nmodes s
      /\ forall i, (i < m)%nat ->
           entry b i
           = Sigma (node_size s) (fun j => entry2 ms i j * entry fs j))
    (fun imode b =>
       x ← row_dot {| mode_shape := ms; f_s := fs |} imode fs;
       np.setitem b imode x)
    (nmodes s) (np.fill buf 0)) as (mfv & Hrun & Hlen & Hent).
  - unfold np.fill. rewrite length_replicate. split; [done | intros; lia].
  - intros m b Hm (Hb & Hent).
    rewrite (forces_row_dot ms fs fs _ _ m Hshape) by done. simpl.
    rewrite setitem_lt by lia. eexists. split; [done|].
    split; [by rewrite length_insert|].
    intros i Hi. destruct (decide (i = m)) as [->|Hne].
    + by rewrite entry_insert_eq by lia.
    + rewrite entry_insert_ne by done. apply Hent. lia.
  - exists mfv. rewrite Hrun. done.
Qed.

(** C6: for [mode_shape] of shape [[nmodes, node_size]] ([node_size] is
    [3 Nn]) and a nodal force vector [f_s] of length [node_size], the force
    projection returns [mf] of length [nmodes] with
    [mf[i] = sum_j mode_shape[i,j] * f_s[j]], whatever the output buffer held
    before. *)
Theorem project_force_is_row_sum (s : self) (ms : np.array2)
    (fs buf : np.array) :
  has_shape ms (nmodes s) (node_size s) ->
  length fs = node_size s -> length buf = nmodes s ->
  exists mfv,
    (forall buf', length buf' = nmodes s ->
       compute s {| mode_shape := ms; f_s := fs |} {| mf := buf' |}
       = Ok {| mf := mfv |})
    /\ length mfv = nmodes s
    /\ forall i, (i < nmodes s)%nat ->
         entry mfv i = Sigma (node_size s) (fun j => entry2 ms i j * entry fs j).
Proof.
  intros Hshape Hfs Hbuf.
  destruct (forces_compute_spec s ms fs buf Hshape Hfs Hbuf)
    as (mfv & Hrun & Hlen & Hent).
  exists mfv. split; [|done].
  intros buf' Hbuf'. rewrite <- Hrun. unfold compute, np.fill. simpl.
  by rewrite Hbuf, Hbuf'.
Qed.

End ModalForcesProps.

Lemma project_force_is_row_sum_witness :
  let s := {| ModalForces.opts := ∅; ModalForces.nmodes := 1;
              ModalForces.node_size := 3 |} in
  let ms := [[1; 1; 0]]%R in
  let fs := [1; 1; 5]%R in
  exists mfv,
    (forall buf', length buf' = 1 ->
       ModalForces.compute s
         {| ModalForces.mode_shape := ms; ModalForces.f_s := fs |}
         {| ModalForces.mf := buf' |}
       = Ok {| ModalForces.mf := mfv |})
    /\ length mfv = 1
    /\ forall i, i < 1 ->
         entry mfv i = Sigma 3 (fun j => entry2 ms i j * entry fs j)%R.
Proof.
  apply (project_force_is_row_sum
           {| ModalForces.opts := ∅; ModalForces.nmodes := 1;
              ModalForces.node_size := 3 |}
           [[1; 1; 0]]%R [1; 1; 5]%R [7]%R);
    [| reflexivity | reflexivity].
  split; [reflexivity | by repeat constructor].
Defined.

Section ModalForcesLoops.
Local Open Scope R_scope.
Import ModalForces.
Context (ms : np.array2) (fs : np.array) (r c : nat).
Context (Hshape : has_shape ms r c).
Local Abbreviation inp := {| mode_shape := ms; f_s := fs |}.

(** The forward loop with bound [n]:
    [d_mf[i] += sum_j mode_shape[i,j] * d_f_s[j]] for [i < n]. *)
Lemma forces_fwd_loop_spec (dfs dmf : np.array) n :
  length dfs = c -> length dmf = r -> (n <= r)%nat ->
  exists dmf',
    fwd_loop n inp dfs dmf = Ok dmf'
    /\ length dmf' = r
    /\ (forall i, (i < n)%nat ->
          entry dmf' i
          = entry dmf i + Sigma c (fun j => entry2 ms i j * entry dfs j))
    /\ (forall i, (n <= i)%nat -> entry dmf' i = entry dmf i).
Proof using Hshape.
  intros Hdfs Hdmf Hn. unfold fwd_loop.
  apply (dot_loop_spec ms r c); [|done..].
  intros i b Hi Hb. rewrite getitem_lt by lia. simpl.
  rewrite (forces_row_dot ms fs dfs r c i Hshape Hi Hdfs). simpl.
  by rewrite setitem_lt by lia.
Qed.

(** The reverse loop with bound [n]:
    [d_f_s[j] += sum_(i<n) mode_shape[i,j] * d_mf[i]]. *)
Lemma forces_rev_loop_spec (dmf dfs : np.array) n :
  length dmf = r -> length dfs = c -> (n <= r)%nat ->
  exists dfs',
    rev_loop n inp dmf dfs = Ok dfs'
    /\ length dfs' = c
    /\ forall j, (j < c)%nat ->
         entry dfs' j
         = entry dfs j + Sigma n (fun i => entry2 ms i j * entry dmf i).
Proof using Hshape.
  intros Hdmf Hdfs Hn. unfold rev_loop. simpl.
  by apply (axpy_loop_spec ms r c Hshape).
Qed.

End ModalForcesLoops.

(** The inner products of a matrix-vector product and of its transpose. *)
Lemma transpose_dot (ms : np.array2) (u v : np.array) r c :
  (Sigma r (fun i => (0 + Sigma c (fun j => entry2 ms i j * entry u j))
                     * entry v i)
   = Sigma c (fun j => entry u j
                       * (0 + Sigma r (fun i => entry2 ms i j * entry v i))))%R.
Proof.
  rewrite (Sigma_ext r _
    (fun i => Sigma c (fun j => entry2 ms i j * entry u j * entry v i)%R)).
  2:{ intros i _. rewrite Rplus_0_l, Rmult_comm, <- Sigma_scal.
      apply Sigma_ext. intros j _. lra. }
  rewrite Sigma_swap. apply Sigma_ext. intros j _.
  rewrite Rplus_0_l, <- Sigma_scal. apply Sigma_ext. intros i _. lra.
Qed.

(** With the loop bound [nmodes] that [compute] uses, the two loops of
    [ModalForces.compute_jacvec_product] are adjoint to one another. *)
Lemma forces_loops_adjoint (ms : np.array2) (fs d_in o_out : np.array) r c :
  has_shape ms r c -> length d_in = c -> length o_out = r ->
  let inp := {| ModalForces.mode_shape := ms; ModalForces.f_s := fs |} in
  exists t a,
    ModalForces.fwd_loop r inp d_in (replicate r 0%R) = Ok t
    /\ ModalForces.rev_loop r inp o_out (replicate c 0%R) = Ok a
    /\ dot t o_out = dot d_in a.
Proof.
  intros Hshape Hd Ho inp.
  destruct (forces_fwd_loop_spec ms fs r c Hshape d_in (replicate r 0%R) r)
    as (t & Ht & Hlt & Hent & _); [done | by rewrite length_replicate | done |].
  destruct (forces_rev_loop_spec ms fs r c Hshape o_out (replicate c 0%R) r)
    as (a & Ha & Hla & Henta); [done | by rewrite length_replicate | done |].
  exists t, a. split; [done|]. split; [done|].
  rewrite !dot_Sigma by lia. rewrite Hlt, Hd.
  rewrite (Sigma_ext r _ (fun i =>
    (0 + Sigma c (fun j => entry2 ms i j * entry d_in j)) * entry o_out i)%R).
  2:{ intros i Hi. by rewrite Hent, entry_replicate by done. }
  rewrite transpose_dot. apply Sigma_ext. intros j Hj.
  by rewrite Henta, entry_replicate by done.
Qed.

(** ** ModalDisplacements *)

Section ModalDisplacementsProps.
Local Open Scope R_scope.
Import ModalDisplacements.

(** The loop [buf[:] += mode_shape[i,:] * v[i]] with bound [n]. *)
Lemma disps_expand_loop_spec (ms : np.array2) (zv v buf : np.array) r c n :
  has_shape ms r c -> length v = r -> length buf = c -> (n <= r)%nat ->
  exists buf',
    expand_loop n {| mode_shape := ms; z := zv |} v buf = Ok buf'
    /\ length buf' = c
    /\ forall j, (j < c)%nat ->
         entry buf' j
         = entry buf j + Sigma n (fun i => entry2 ms i j * entry v i).
Proof.
  intros Hshape Hv Hbuf Hn. unfold expand_loop. simpl.
  by apply (axpy_loop_spec ms r c Hshape).
Qed.

(** The loop [buf[i] += np.sum(mode_shape[i,:] * v[:])] with bound [n]. *)
Lemma disps_rev_loop_spec (ms : np.array2) (zv dus dz : np.array) r c n :
  has_shape ms r c -> length dus = c -> length dz = r -> (n <= r)%nat ->
  exists dz',
    rev_loop n {| mode_shape := ms; z := zv |} dus dz = Ok dz'
    /\ length dz' = r
    /\ (forall i, (i < n)%nat ->
          entry dz' i
          = entry dz i + Sigma c (fun j => entry2 ms i j * entry dus j))
    /\ (forall i, (n <= i)%nat -> entry dz' i = entry dz i).
Proof.
  intros Hshape Hdus Hdz Hn. unfold rev_loop. simpl.
  apply (dot_loop_spec ms r c); [|done..].
  intros i b Hi Hb. rewrite getitem_lt by lia. simpl.
  rewrite (getitem_row ms r c Hshape) by done. simpl.
  destruct (row_times_sum ms r c Hshape i dus Hi Hdus) as (p & Hp & Hsum).
  rewrite Hp. simpl. rewrite Hsum. by rewrite setitem_lt by lia.
Qed.

Lemma disps_compute_spec (s : self) (ms : np.array2) (zv buf : np.array) :
  has_shape ms (nmodes s) (node_size s) ->
  length zv = nmodes s -> length buf = node_size s ->
  exists us,
    compute s {| mode_shape := ms; z := zv |} {| u_s := buf |}
    = Ok {| u_s := us |}
    /\ length us = node_size s
    /\ forall j, (j < node_size s)%nat ->
         entry us j = Sigma (nmodes s) (fun i => entry2 ms i j * entry zv i).
Proof.
  intros Hshape Hz Hbuf. unfold compute. simpl.
  destruct (disps_expand_loop_spec ms zv zv (np.fill buf 0) _ _ (nmodes s)
              Hshape Hz) as (us & Hrun & Hlen & Hent);
    [unfold np.fill; by rewrite length_replicate | done |].
  exists us. rewrite Hrun. split; [done|]. split; [done|].
  intros j Hj. rewrite Hent by done. unfold np.fill.
  rewrite entry_replicate by lia. lra.
Qed.

(** C7: for [mode_shape] of shape [[nmodes, node_size]] and a modal
    displacement vector [z] of length [nmodes], the reconstruction returns
    [u_s] of length [node_size] with [u_s[j] = sum_i mode_shape[i,j] * z[i]]:
    the transpose of the map of the force projection, which reads the same
    entries [mode_shape[i,j]]. *)
Theorem reconstruct_is_column_sum (s : self) (f : ModalForces.self)
    (ms : np.array2) (zv fs ubuf mbuf : np.array) :
  has_shape ms (nmodes s) (node_size s) ->
  ModalForces.nmodes f = nmodes s -> ModalForces.node_size f = node_size s ->
  length zv = nmodes s -> length ubuf = node_size s ->
  length fs = node_size s -> length mbuf = nmodes s ->
  exists us mfv,
    compute s {| mode_shape := ms; z := zv |} {| u_s := ubuf |}
    = Ok {| u_s := us |}
    /\ length us = node_size s
    /\ (forall j, (j < node_size s)%nat ->
          entry us j = Sigma (nmodes s) (fun i => entry2 ms i j * entry zv i))
    /\ ModalForces.compute f
         {| ModalForces.mode_shape := ms; ModalForces.f_s := fs |}
         {| ModalForces.mf := mbuf |}
       = Ok {| ModalForces.mf := mfv |}
    /\ (forall i, (i < nmodes s)%nat ->
          entry mfv i
          = Sigma (node_size s) (fun j => entry2 ms i j * entry fs j))
    /\ dot us fs = dot zv mfv.
Proof.
  intros Hshape Hfn Hfc Hz Hubuf Hfs Hmbuf.
  destruct (disps_compute_spec s ms zv ubuf Hshape Hz Hubuf)
    as (us & Hrun & Hlen & Hent).
  destruct (forces_compute_spec f ms fs mbuf) as (mfv & Hrunf & Hlenf & Hentf);
    [by rewrite Hfn, Hfc | lia | lia |].
  rewrite Hfn, Hfc in *.
  exists us, mfv. do 5 (split; [done|]).
  rewrite !dot_Sigma by lia. rewrite Hlen, Hz.
  rewrite (Sigma_ext (node_size s) _ (fun j =>
    entry fs j
    * (0 + Sigma (nmodes s) (fun i => entry2 ms i j * entry zv i)))%R).
  2:{ intros j Hj. rewrite Hent by done. lra. }
  rewrite (Sigma_ext (nmodes s) _ (fun i =>
    (0 + Sigma (node_size s) (fun j => entry2 ms i j * entry fs j))
    * entry zv i)%R).
  2:{ intros i Hi. rewrite Hentf by done. lra. }
  symmetry. apply transpose_dot.
Qed.

End ModalDisplacementsProps.

Lemma reconstruct_is_column_sum_witness :
  let s := {| ModalDisplacements.opts := ∅; ModalDisplacements.nmodes := 1;
              ModalDisplacements.node_size := 3 |} in
  let f := {| ModalForces.opts := ∅; ModalForces.nmodes := 1;
              ModalForces.node_size := 3 |} in
  let ms := [[1; 1; 0]]%R in
  let zv := [2]%R in
  let fs := [1; 1; 5]%R in
  exists us mfv,
    ModalDisplacements.compute s
      {| ModalDisplacements.mode_shape := ms; ModalDisplacements.z := zv |}
      {| ModalDisplacements.u_s := [9; 9; 9]%R |}
    = Ok {| ModalDisplacements.u_s := us |}
    /\ length us = 3
    /\ (forall j, j < 3 ->
          entry us j = Sigma 1 (fun i => entry2 ms i j * entry zv i)%R)
    /\ ModalForces.compute f
         {| ModalForces.mode_shape := ms; ModalForces.f_s := fs |}
         {| ModalForces.mf := [7]%R |}
       = Ok {| ModalForces.mf := mfv |}
    /\ (forall i, i < 1 ->
          entry mfv i = Sigma 3 (fun j => entry2 ms i j * entry fs j)%R)
    /\ dot us fs = dot zv mfv.
Proof.
  apply (reconstruct_is_column_sum
           {| ModalDisplacements.opts := ∅; ModalDisplacements.nmodes := 1;
              ModalDisplacements.node_size := 3 |}
           {| ModalForces.opts := ∅; ModalForces.nmodes := 1;
              ModalForces.node_size := 3 |}
           [[1; 1; 0]]%R [2]%R [1; 1; 5]%R [9; 9; 9]%R [7]%R);
    [| reflexivity..].
  split; [reflexivity | by repeat constructor].
Defined.

(** With the loop bound [nmodes] that [compute] uses, the two loops of
    [ModalDisplacements.compute_jacvec_product] are adjoint to one
    another. *)
Lemma disps_loops_adjoint (ms : np.array2) (zv d_in o_out : np.array) r c :
  has_shape ms r c -> length d_in = r -> length o_out = c ->
  let inp := {| ModalDisplacements.mode_shape := ms;
                ModalDisplacements.z := zv |} in
  exists t a,
    ModalDisplacements.expand_loop r inp d_in (replicate c 0%R) = Ok t
    /\ ModalDisplacements.rev_loop r inp o_out (replicate r 0%R) = Ok a
    /\ dot t o_out = dot d_in a.
Proof.
  intros Hshape Hd Ho inp.
  destruct (disps_expand_loop_spec ms zv d_in (replicate c 0%R) r c r)
    as (t & Ht & Hlt & Hent); [done | done | by rewrite length_replicate | done |].
  destruct (disps_rev_loop_spec ms zv o_out (replicate r 0%R) r c r)
    as (a & Ha & Hla & Henta & _);
    [done | done | by rewrite length_replicate | done |].
  exists t, a. split; [done|]. split; [done|].
  rewrite !dot_Sigma by lia. rewrite Hlt, Hd.
  rewrite (Sigma_ext c _ (fun j =>
    entry o_out j
    * (0 + Sigma r (fun i => entry2 ms i j * entry d_in i)))%R).
  2:{ intros j Hj. rewrite Hent, entry_replicate by done. lra. }
  rewrite (Sigma_ext r _ (fun i =>
    (0 + Sigma c (fun j => entry2 ms i j * entry o_out j))
    * entry d_in i)%R).
  2:{ intros i Hi. rewrite Henta, entry_replicate by done. lra. }
  symmetry. apply transpose_dot.
Qed.

(** The forward and the reverse product of [ModalSolver] are adjoint to one
    another: the dot-product identity, from zeroed accumulators. *)
Lemma solver_jacvec_adjoint (n : nat) (kv mfv dk dmf o_out : np.array) :
  length kv = n -> length mfv = n ->
  length dk = n -> length dmf = n -> length o_out = n ->
  let inp := {| ModalSolver.k := kv; ModalSolver.mf := mfv |} in
  let zero := replicate n 0%R in
  exists t ak amf,
    ModalSolver.compute_jacvec_product inp
      {| ModalSolver.d_k := Some dk; ModalSolver.d_mf := Some dmf |}
      {| ModalSolver.d_z := Some zero |} "fwd"
    = Ok ({| ModalSolver.d_k := Some dk; ModalSolver.d_mf := Some dmf |},
          {| ModalSolver.d_z := Some t |})
    /\ ModalSolver.compute_jacvec_product inp
         {| ModalSolver.d_k := Some zero; ModalSolver.d_mf := Some zero |}
         {| ModalSolver.d_z := Some o_out |} "rev"
       = Ok ({| ModalSolver.d_k := Some ak; ModalSolver.d_mf := Some amf |},
             {| ModalSolver.d_z := Some o_out |})
    /\ dot t o_out = (dot dmf amf + dot dk ak)%R.
Proof.
  intros Hk Hmf Hdk Hdmf Ho inp zero.
  assert (Hzero : length zero = n) by (unfold zero; by rewrite length_replicate).
  assert (Hlen : forall (a b : np.array) (f : R -> R -> R),
             length a = n -> length b = n -> length (zip_with f a b) = n)
    by (intros a b f Ha Hb; rewrite length_zip_with; lia).
  assert (Hcoef : length (zip_with Rdiv (np.neg mfv) (np.square kv)) = n)
    by (apply Hlen; unfold np.neg, np.square; rewrite length_map; lia).
  do 3 eexists. unfold ModalSolver.compute_jacvec_product, inp. simpl.
  rewrite solver_jacvec_fwd_same by lia. simpl.
  rewrite solver_jacvec_rev_same by lia. simpl.
  split; [reflexivity|]. split; [reflexivity|].
  rewrite !dot_Sigma by (rewrite ?Hlen; auto; lia).
  rewrite !Hlen, Hdmf, Hdk by auto. rewrite <- Sigma_plus.
  apply Sigma_ext. intros i Hi.
  rewrite entry_zip_with by (rewrite ?Hlen; auto; lia).
  rewrite entry_dz_dk_times by lia.
  rewrite entry_zip_with by (rewrite ?Hlen; auto; lia).
  rewrite entry_zip_with by lia.
  rewrite entry_zip_with by (rewrite ?Hlen; auto; lia).
  rewrite entry_zip_with by lia.
  rewrite entry_zip_with by (rewrite ?Hlen; auto; lia).
  rewrite entry_dz_dk_times by lia.
  unfold zero. rewrite entry_replicate by lia.
  unfold Rdiv. ring.
Qed.

(** ** Option dictionaries *)

Section Options.
Implicit Types (o fw : gmap string options.optval).

Lemma setitem_undeclared o o' name v key :
  options.setitem o name v = Ok o' -> o !! key = None -> o' !! key = None.
Proof.
  unfold options.setitem. destruct (o !! name) eqn:Hname; [|done].
  intros [= <-] Hkey. rewrite lookup_insert_ne; [done|]. congruence.
Qed.

(** Keyword arguments set declared options only: they declare nothing. *)
Lemma update_undeclared kwargs o o' key :
  options.update o kwargs = Ok o' -> o !! key = None -> o' !! key = None.
Proof.
  revert o. induction kwargs as [|[name v] rest IH]; intros o; simpl.
  - by intros [= <-].
  - destruct (options.setitem o name v) as [o1|] eqn:Hset; simpl; [|done].
    intros Hrest Hkey. apply (IH o1 Hrest).
    by apply (setitem_undeclared o o1 name v).
Qed.

Lemma setitem_declared o o' name v key :
  options.setitem o name v = Ok o' -> is_Some (o !! key) -> is_Some (o' !! key).
Proof.
  unfold options.setitem. destruct (o !! name) eqn:Hname; [|done].
  intros [= <-] Hkey. destruct (decide (name = key)) as [->|Hne].
  - rewrite lookup_insert_eq. by eexists.
  - by rewrite lookup_insert_ne.
Qed.

Lemma update_declared kwargs o o' key :
  options.update o kwargs = Ok o' -> is_Some (o !! key) -> is_Some (o' !! key).
Proof.
  revert o. induction kwargs as [|[name v] rest IH]; intros o; simpl.
  - by intros [= <-].
  - destruct (options.setitem o name v) as [o1|] eqn:Hset; simpl; [|done].
    intros Hrest Hkey. apply (IH o1 Hrest).
    by apply (setitem_declared o o1 name v).
Qed.

Lemma getitem_undeclared o key :
  o !! key = None -> options.getitem o key = Raise (KeyError key).
Proof. unfold options.getitem. by intros ->. Qed.

Lemma forces_options_lack_nmodes fw kwargs o s :
  fw !! "nmodes" = None ->
  options.instantiate fw ModalForces.initialize kwargs = Ok o ->
  ModalForces.setup o = Ok s ->
  ModalForces.loop_bound s = Raise (KeyError "nmodes").
Proof.
  intros Hfw Hinst Hsetup. unfold options.instantiate in Hinst.
  simpl in Hinst.
  assert (Ho : o !! "nmodes" = None).
  { apply (update_undeclared _ _ _ _ Hinst).
    unfold options.declare. by rewrite lookup_insert_ne. }
  assert (Hs : ModalForces.opts s = o).
  { unfold ModalForces.setup in Hsetup.
    destruct (options.getitem o "get_modal_sizes") as [v|]; simpl in Hsetup;
      [|done].
    destruct v; try done. by injection Hsetup as <-. }
  unfold ModalForces.loop_bound. rewrite Hs.
  by rewrite getitem_undeclared.
Qed.

Lemma disps_options_lack_nmodes fw kwargs o s :
  fw !! "nmodes" = None ->
  options.instantiate fw ModalDisplacements.initialize kwargs = Ok o ->
  ModalDisplacements.setup o = Ok s ->
  ModalDisplacements.loop_bound s = Raise (KeyError "nmodes").
Proof.
  intros Hfw Hinst Hsetup. unfold options.instantiate in Hinst.
  simpl in Hinst.
  assert (Ho : o !! "nmodes" = None).
  { apply (update_undeclared _ _ _ _ Hinst).
    unfold options.declare. by rewrite lookup_insert_ne. }
  assert (Hs : ModalDisplacements.opts s = o).
  { unfold ModalDisplacements.setup in Hsetup.
    destruct (options.getitem o "get_modal_sizes") as [v|]; simpl in Hsetup;
      [|done].
    destruct v; try done. by injection Hsetup as <-. }
  unfold ModalDisplacements.loop_bound. rewrite Hs.
  by rewrite getitem_undeclared.
Qed.

Lemma solver_options_have_nmodes fw kwargs o :
  options.instantiate fw ModalSolver.initialize kwargs = Ok o ->
  is_Some (o !! "nmodes").
Proof.
  unfold options.instantiate. simpl. intros Hinst.
  apply (update_declared _ _ _ _ Hinst).
  unfold options.declare. rewrite lookup_insert_eq. by eexists.
Qed.

End Options.

(** [ModalSolver.compute_jacvec_product] reads no option: the only
    exception it can raise is the [ValueError] of mismatched shapes. *)
Lemma solver_dz_dk_times_exn i seed e :
  ModalSolver.dz_dk_times i seed = Raise e -> e = ValueError.
Proof.
  unfold ModalSolver.dz_dk_times, np.div, np.mul.
  destruct (np.binop Rdiv _ _) eqn:Hq; simpl.
  - apply binop_exn.
  - intros [= <-]. by apply binop_exn in Hq.
Qed.

Lemma solver_jacvec_exn i d_i d_o mode e :
  ModalSolver.compute_jacvec_product i d_i d_o mode = Raise e ->
  e = ValueError.
Proof.
  unfold ModalSolver.compute_jacvec_product.
  assert (Hfwd : forall e, ModalSolver.jacvec_fwd i d_i d_o = Raise e ->
                           e = ValueError).
  { clear e. intros e. unfold ModalSolver.jacvec_fwd.
    destruct (ModalSolver.d_z d_o) as [dz|]; [|done].
    destruct (ModalSolver.d_mf d_i) as [dmf|]; simpl.
    - unfold np.div. destruct (np.binop Rdiv dmf _) eqn:Hq; simpl.
      2:{ intros [= <-]. by apply binop_exn in Hq. }
      destruct (np.iadd dz a) as [dz1|] eqn:Hadd; simpl.
      2:{ intros [= <-]. by apply iadd_exn in Hadd. }
      destruct (ModalSolver.d_k d_i) as [dk|]; simpl; [|done].
      destruct (ModalSolver.dz_dk_times i dk) eqn:Hc; simpl.
      2:{ intros [= <-]. by apply solver_dz_dk_times_exn in Hc. }
      destruct (np.iadd dz1 a0) eqn:Hadd2; simpl; [done|].
      intros [= <-]. by apply iadd_exn in Hadd2.
    - destruct (ModalSolver.d_k d_i) as [dk|]; simpl; [|done].
      destruct (ModalSolver.dz_dk_times i dk) eqn:Hc; simpl.
      2:{ intros [= <-]. by apply solver_dz_dk_times_exn in Hc. }
      destruct (np.iadd dz a) eqn:Hadd2; simpl; [done|].
      intros [= <-]. by apply iadd_exn in Hadd2. }
  assert (Hrev : forall d_o e, ModalSolver.jacvec_rev i d_i d_o = Raise e ->
                               e = ValueError).
  { clear. intros d_o e. unfold ModalSolver.jacvec_rev.
    destruct (ModalSolver.d_z d_o) as [dz|]; [|done].
    destruct (ModalSolver.d_mf d_i) as [dmf|]; simpl.
    - unfold np.div. destruct (np.binop Rdiv dz _) eqn:Hq; simpl.
      2:{ intros [= <-]. by apply binop_exn in Hq. }
      destruct (np.iadd dmf a) as [b1|] eqn:Hadd; simpl.
      2:{ intros [= <-]. by apply iadd_exn in Hadd. }
      destruct (ModalSolver.d_k d_i) as [dk|]; simpl; [|done].
      destruct (ModalSolver.dz_dk_times i dz) eqn:Hc; simpl.
      2:{ intros [= <-]. by apply solver_dz_dk_times_exn in Hc. }
      destruct (np.iadd dk a0) eqn:Hadd2; simpl; [done|].
      intros [= <-]. by apply iadd_exn in Hadd2.
    - destruct (ModalSolver.d_k d_i) as [dk|]; simpl; [|done].
      destruct (ModalSolver.dz_dk_times i dz) eqn:Hc; simpl.
      2:{ intros [= <-]. by apply solver_dz_dk_times_exn in Hc. }
      destruct (np.iadd dk a) eqn:Hadd2; simpl; [done|].
      intros [= <-]. by apply iadd_exn in Hadd2. }
  destruct (decide (mode = "fwd")), (decide (mode = "rev")); simpl;
    repeat match goal with
      | |- context [ModalSolver.jacvec_fwd i d_i ?d] =>
          destruct (ModalSolver.jacvec_fwd i d_i d) eqn:?; simpl
      | |- context [ModalSolver.jacvec_rev i d_i ?d] =>
          destruct (ModalSolver.jacvec_rev i d_i d) eqn:?; simpl
      end;
    try done; intros [= <-]; eauto.
Qed.

(** ** The option [nmodes] in [compute_jacvec_product] *)

(** C2: [ModalForces] and [ModalDisplacements] declare the single option
    [get_modal_sizes], so [nmodes] is not an option of theirs; every call of
    their [compute_jacvec_product] in mode [fwd] or [rev] with both seeds
    present evaluates [self.options['nmodes']] and raises [KeyError] before
    it applies any rule. [ModalSolver] declares [nmodes], and its
    [compute_jacvec_product] never raises [KeyError]. *)
Theorem projection_jacvec_raises_KeyError
    (fw : gmap string options.optval)
    (kwargs_p kwargs_s : list (string * options.optval)) :
  fw !! "nmodes" = None ->
  (forall o s inp dfs dmf mode,
     options.instantiate fw ModalForces.initialize kwargs_p = Ok o ->
     ModalForces.setup o = Ok s ->
     mode = "fwd" \/ mode = "rev" ->
     ModalForces.compute_jacvec_product s inp
       {| ModalForces.d_f_s := Some dfs |} {| ModalForces.d_mf := Some dmf |}
       mode
     = Raise (KeyError "nmodes"))
  /\ (forall o s inp dz dus mode,
     options.instantiate fw ModalDisplacements.initialize kwargs_p = Ok o ->
     ModalDisplacements.setup o = Ok s ->
     mode = "fwd" \/ mode = "rev" ->
     ModalDisplacements.compute_jacvec_product s inp
       {| ModalDisplacements.d_z := Some dz |}
       {| ModalDisplacements.d_u_s := Some dus |} mode
     = Raise (KeyError "nmodes"))
  /\ (forall o inp d_i d_o mode key,
     options.instantiate fw ModalSolver.initialize kwargs_s = Ok o ->
     is_Some (o !! "nmodes")
     /\ ModalSolver.compute_jacvec_product inp d_i d_o mode
        <> Raise (KeyError key)).
Proof.
  intros Hfw. split; [|split].
  - intros o s inp dfs dmf mode Hinst Hsetup Hmode.
    pose proof (forces_options_lack_nmodes fw kwargs_p o s Hfw Hinst Hsetup)
      as Hbound.
    unfold ModalForces.compute_jacvec_product.
    destruct Hmode as [-> | ->]; simpl.
    + unfold ModalForces.jacvec_fwd. simpl. by rewrite Hbound.
    + unfold ModalForces.jacvec_rev. simpl. by rewrite Hbound.
  - intros o s inp dz dus mode Hinst Hsetup Hmode.
    pose proof (disps_options_lack_nmodes fw kwargs_p o s Hfw Hinst Hsetup)
      as Hbound.
    unfold ModalDisplacements.compute_jacvec_product.
    destruct Hmode as [-> | ->]; simpl.
    + unfold ModalDisplacements.jacvec_fwd. simpl. by rewrite Hbound.
    + unfold ModalDisplacements.jacvec_rev. simpl. by rewrite Hbound.
  - intros o inp d_i d_o mode key Hinst.
    split; [by apply (solver_options_have_nmodes fw kwargs_s)|].
    intros Hraise. by apply solver_jacvec_exn in Hraise.
Qed.

Lemma projection_jacvec_raises_KeyError_witness :
  let fw : gmap string options.optval :=
    {[ "distributed" := options.PyBool false ]} in
  let kwargs_p :=
    [("get_modal_sizes", options.PyGetSizes (fun _ => (2, 2)))] in
  let kwargs_s := [("nmodes", options.PyInt 2)] in
  let eye := [[1; 0]; [0; 1]]%R in
  (exists o s,
     options.instantiate fw ModalForces.initialize kwargs_p = Ok o
     /\ ModalForces.setup o = Ok s
     /\ ModalForces.compute_jacvec_product s
          {| ModalForces.mode_shape := eye; ModalForces.f_s := [3; 4]%R |}
          {| ModalForces.d_f_s := Some [1; 0]%R |}
          {| ModalForces.d_mf := Some [0; 0]%R |} "fwd"
        = Raise (KeyError "nmodes"))
  /\ (exists o s,
     options.instantiate fw ModalDisplacements.initialize kwargs_p = Ok o
     /\ ModalDisplacements.setup o = Ok s
     /\ ModalDisplacements.compute_jacvec_product s
          {| ModalDisplacements.mode_shape := eye;
             ModalDisplacements.z := [3; 2]%R |}
          {| ModalDisplacements.d_z := Some [0; 0]%R |}
          {| ModalDisplacements.d_u_s := Some [1; 0]%R |} "rev"
        = Raise (KeyError "nmodes"))
  /\ (exists o,
     options.instantiate fw ModalSolver.initialize kwargs_s = Ok o
     /\ is_Some (o !! "nmodes")).
Proof.
  intros fw kwargs_p kwargs_s eye.
  destruct (projection_jacvec_raises_KeyError fw kwargs_p kwargs_s eq_refl)
    as (Hforces & Hdisps & Hsolver).
  split; [|split].
  - eexists _, _. split; [reflexivity|]. split; [reflexivity|].
    eapply Hforces; [reflexivity | reflexivity | by left].
  - eexists _, _. split; [reflexivity|]. split; [reflexivity|].
    eapply Hdisps; [reflexivity | reflexivity | by right].
  - eexists. split; [reflexivity|].
    eapply (fun o H => proj1 (Hsolver o
             {| ModalSolver.k := []; ModalSolver.mf := [] |}
             {| ModalSolver.d_k := None; ModalSolver.d_mf := None |}
             {| ModalSolver.d_z := None |} "fwd" "nmodes" H)).
    reflexivity.
Defined.

(** What [add_fsi_components] builds: the two projections get their sizes
    from [get_modal_sizes], and no option [nmodes]. *)
Lemma modal_forces_built (fw : gmap string options.optval)
    (a : ModalStructAssembler.self) :
  exists s,
    ModalStructAssembler.modal_forces fw a = Ok s
    /\ ModalForces.nmodes s = ModalStructAssembler.nmodes a
    /\ ModalForces.node_size s = ModalStructAssembler.nnodes a * 3.
Proof.
  unfold ModalStructAssembler.modal_forces, options.instantiate. simpl.
  unfold options.setitem, options.declare. rewrite lookup_insert_eq. simpl.
  unfold ModalForces.setup, options.getitem. rewrite lookup_insert_eq. simpl.
  eexists. split; [reflexivity|]. done.
Qed.

Lemma modal_disps_built (fw : gmap string options.optval)
    (a : ModalStructAssembler.self) :
  exists s,
    ModalStructAssembler.modal_disps fw a = Ok s
    /\ ModalDisplacements.nmodes s = ModalStructAssembler.nmodes a
    /\ ModalDisplacements.node_size s = ModalStructAssembler.nnodes a * 3.
Proof.
  unfold ModalStructAssembler.modal_disps, options.instantiate. simpl.
  unfold options.setitem, options.declare. rewrite lookup_insert_eq. simpl.
  unfold ModalDisplacements.setup, options.getitem.
  rewrite lookup_insert_eq. simpl.
  eexists. split; [reflexivity|]. done.
Qed.

(** C1, the failing inputs: the two projections, built as
    [add_fsi_components] builds them (one mode, one node) and seeded as an
    adjoint check seeds them, raise [KeyError] in both modes, so that no
    tangent and no adjoint is produced to pair in the dot-product
    identity. *)
Theorem projection_adjoint_check_raises :
  let fw : gmap string options.optval :=
    {[ "distributed" := options.PyBool false ]} in
  let t := {| TACS.nodes := [0; 0; 0]%R; TACS.vec_size := 6;
              TACS.frequency_analysis :=
                fun _ _ _ _ => Raise (ExternalError "solve") |} in
  let a := {| ModalStructAssembler.nmodes := 1;
              ModalStructAssembler.nnodes := 1;
              ModalStructAssembler.ndv := 1;
              ModalStructAssembler.tacs := t |} in
  let shape := [[1; 1; 0]]%R in
  let forces mode :=
    s ← ModalStructAssembler.modal_forces fw a;
    ModalForces.compute_jacvec_product s
      {| ModalForces.mode_shape := shape; ModalForces.f_s := [1; 1; 5]%R |}
      {| ModalForces.d_f_s := Some [1; 0; 0]%R |}
      {| ModalForces.d_mf := Some [0]%R |} mode in
  let disps mode :=
    s ← ModalStructAssembler.modal_disps fw a;
    ModalDisplacements.compute_jacvec_product s
      {| ModalDisplacements.mode_shape := shape;
         ModalDisplacements.z := [2]%R |}
      {| ModalDisplacements.d_z := Some [0]%R |}
      {| ModalDisplacements.d_u_s := Some [1; 0; 0]%R |} mode in
  forces "fwd" = Raise (KeyError "nmodes")
  /\ forces "rev" = Raise (KeyError "nmodes")
  /\ disps "fwd" = Raise (KeyError "nmodes")
  /\ disps "rev" = Raise (KeyError "nmodes").
Proof. repeat split; reflexivity. Qed.

(** ** The chain of the group [struct] *)

Section Chain.
Local Open Scope R_scope.
Import ModalStructAssembler.
Context (forces : ModalForces.self) (disps : ModalDisplacements.self).
Context (n c : nat).
Context (Hfn : ModalForces.nmodes forces = n).
Context (Hfc : ModalForces.node_size forces = c).
Context (Hdn : ModalDisplacements.nmodes disps = n).
Context (Hdc : ModalDisplacements.node_size disps = c).
Context (ms : np.array2) (kv : np.array).
Context (Hshape : has_shape ms n c) (Hk : length kv = n).

(** What one evaluation of the group returns in [u_s]. *)
Lemma run_struct_spec (fs : np.array) (o : struct_outputs) :
  length fs = c ->
  length (mf o) = n -> length (z o) = n -> length (u_s o) = c ->
  exists o',
    run_struct forces disps ms kv fs o = Ok o'
    /\ length (u_s o') = c
    /\ forall j, (j < c)%nat ->
         entry (u_s o') j
         = Sigma n (fun i =>
             entry2 ms i j
             * (Sigma c (fun l => entry2 ms i l * entry fs l) / entry kv i)).
Proof using Hfn Hfc Hdn Hdc Hshape Hk.
  intros Hfs Hmf Hz Hu. unfold run_struct.
  destruct (forces_compute_spec forces ms fs (mf o))
    as (mfv & -> & Hlmf & Hemf); [by rewrite Hfn, Hfc | lia | lia |]. simpl.
  rewrite solver_compute_same_length by lia. simpl.
  destruct (disps_compute_spec disps ms (zip_with Rdiv mfv kv) (u_s o))
    as (us & -> & Hlus & Heus);
    [by rewrite Hdn, Hdc | rewrite length_zip_with; lia | lia |]. simpl.
  eexists. split; [reflexivity|]. simpl. split; [lia|].
  intros j Hj. rewrite Heus by lia. rewrite Hdn.
  apply Sigma_ext. intros i Hi.
  rewrite entry_zip_with by lia. rewrite Hemf by lia. by rewrite Hfc.
Qed.

End Chain.

(** C10: for a fixed [mode_shape] and a fixed stiffness vector [k] without a
    zero entry, the chain projection, solve, reconstruction applied to
    [alpha * f_s] returns [alpha] times what it returns for [f_s]. *)
Theorem struct_chain_is_linear (forces : ModalForces.self)
    (disps : ModalDisplacements.self) (n c : nat)
    (ms : np.array2) (kv fs : np.array) (alpha : R)
    (o : ModalStructAssembler.struct_outputs) :
  ModalForces.nmodes forces = n -> ModalForces.node_size forces = c ->
  ModalDisplacements.nmodes disps = n ->
  ModalDisplacements.node_size disps = c ->
  has_shape ms n c -> length kv = n -> Forall (fun x => x <> 0%R) kv ->
  length fs = c ->
  length (ModalStructAssembler.mf o) = n ->
  length (ModalStructAssembler.z o) = n ->
  length (ModalStructAssembler.u_s o) = c ->
  exists o1 o2,
    ModalStructAssembler.run_struct forces disps ms kv fs o = Ok o1
    /\ ModalStructAssembler.run_struct forces disps ms kv
         (map (Rmult alpha) fs) o = Ok o2
    /\ ModalStructAssembler.u_s o2
       = map (Rmult alpha) (ModalStructAssembler.u_s o1).
Proof.
  intros Hfn Hfc Hdn Hdc Hshape Hk _ Hfs Hmf Hz Hu.
  destruct (run_struct_spec forces disps n c Hfn Hfc Hdn Hdc ms kv Hshape Hk
              fs o Hfs Hmf Hz Hu) as (o1 & Hrun1 & Hl1 & He1).
  destruct (run_struct_spec forces disps n c Hfn Hfc Hdn Hdc ms kv Hshape Hk
              (map (Rmult alpha) fs) o) as (o2 & Hrun2 & Hl2 & He2);
    [by rewrite length_map | done..|].
  exists o1, o2. split; [done|]. split; [done|].
  apply array_eq; [rewrite length_map; lia|].
  intros j Hj. rewrite entry_map by lia.
  rewrite He2, He1 by lia. rewrite <- Sigma_scal.
  apply Sigma_ext. intros i Hi.
  rewrite (Sigma_ext c _
    (fun l => alpha * (entry2 ms i l * entry fs l))%R).
  2:{ intros l Hl. rewrite entry_map by lia. ring. }
  rewrite Sigma_scal. unfold Rdiv. ring.
Qed.

Lemma struct_chain_is_linear_witness :
  let forces := {| ModalForces.opts := ∅; ModalForces.nmodes := 1;
                   ModalForces.node_size := 3 |} in
  let disps := {| ModalDisplacements.opts := ∅;
                  ModalDisplacements.nmodes := 1;
                  ModalDisplacements.node_size := 3 |} in
  let ms := [[1; 1; 0]]%R in
  let o := {| ModalStructAssembler.mf := [1]%R;
              ModalStructAssembler.z := [1]%R;
              ModalStructAssembler.u_s := [0; 0; 0]%R |} in
  exists o1 o2,
    ModalStructAssembler.run_struct forces disps ms [2]%R [1; 1; 5]%R o
    = Ok o1
    /\ ModalStructAssembler.run_struct forces disps ms [2]%R
         (map (Rmult 3) [1; 1; 5]%R) o = Ok o2
    /\ ModalStructAssembler.u_s o2
       = map (Rmult 3) (ModalStructAssembler.u_s o1).
Proof.
  apply (struct_chain_is_linear
           {| ModalForces.opts := ∅; ModalForces.nmodes := 1;
              ModalForces.node_size := 3 |}
           {| ModalDisplacements.opts := ∅;
              ModalDisplacements.nmodes := 1;
              ModalDisplacements.node_size := 3 |}
           1 3 [[1; 1; 0]]%R [2]%R [1; 1; 5]%R 3%R
           {| ModalStructAssembler.mf := [1]%R;
              ModalStructAssembler.z := [1]%R;
              ModalStructAssembler.u_s := [0; 0; 0]%R |});
    try reflexivity.
  - split; [reflexivity | by repeat constructor].
  - repeat constructor. lra.
Defined.

(** ** ModalDecomp *)

Section ModalDecompProps.
Local Open Scope R_scope.
Import ModalDecomp.

(** A turn of the loop over the modes that returns has written [1.0] and
    the eigenvalue at [imode], and nothing else in these two arrays. *)
Lemma store_mode_Ok s sol imode o o' :
  store_mode s sol imode o = Ok o' ->
  (imode < length (modal_mass o))%nat
  /\ modal_mass o' = <[imode := 1]> (modal_mass o)
  /\ (imode < length (modal_stiffness o))%nat
  /\ modal_stiffness o'
     = <[imode := TACS.eig (sol imode)]> (modal_stiffness o)
  /\ x_s0 o' = x_s0 o.
Proof.
  unfold store_mode.
  destruct (np.setitem (modal_mass o) imode 1) as [mass|] eqn:Hm; [|done].
  simpl.
  destruct (np.setitem (modal_stiffness o) imode _) as [stiff|] eqn:Hs;
    [|done].
  simpl. destruct (scatter_mode s imode _ _) as [shape|]; [|done]. simpl.
  intros [= <-]. simpl.
  apply setitem_Ok in Hm as [? ->]. apply setitem_Ok in Hs as [? ->]. done.
Qed.

(** The turn depends on the component through [ndof] and on the eigenpair
    through its eigenvalue and its vector: the error indicator is not
    read. *)
Lemma store_mode_ext s s' sol sol' imode o :
  ndof s = ndof s' ->
  TACS.eig (sol imode) = TACS.eig (sol' imode) ->
  TACS.vec (sol imode) = TACS.vec (sol' imode) ->
  store_mode s sol imode o = store_mode s' sol' imode o.
Proof.
  intros Hndof Heig Hvec. unfold store_mode, scatter_mode.
  by rewrite Hndof, Heig, Hvec.
Qed.

(** C9: every basis that the decomposition returns has
    [modal_mass[i] = 1.0] for every mode [i], whatever the design variables
    and whatever the eigensolver handed out: the value is the constant that
    the loop stores, not a quantity of the eigenpair. *)
Theorem modal_mass_is_one (s : self) (i : inputs) (o o' : outputs) :
  length (modal_mass o) = nmodes s ->
  compute s i o = Ok o' ->
  modal_mass o' = replicate (nmodes s) 1.
Proof.
  intros Hlen. unfold compute.
  destruct (TACS.frequency_analysis _ _ _ _ _) as [sol|]; [|done]. simpl.
  destruct (np.assign (x_s0 o) (xpts s)) as [x|]; [|done]. simpl.
  intros Hrun.
  assert (length (modal_mass o') = nmodes s
          /\ forall j, (j < nmodes s)%nat -> entry (modal_mass o') j = 1)
    as [Hlen' Hent].
  { apply (for_range_inv
      (fun m t => length (modal_mass t) = nmodes s
         /\ forall j, (j < m)%nat -> entry (modal_mass t) j = 1)
      (store_mode s sol) (nmodes s)
      {| mode_shape := mode_shape o; modal_mass := modal_mass o;
         modal_stiffness := modal_stiffness o; x_s0 := x |} o');
      [| |exact Hrun].
    - simpl. split; [done | intros; lia].
    - intros m t t' Hm (Ht & Hent) Hstep.
      apply store_mode_Ok in Hstep as (Hlt & -> & _).
      split; [by rewrite length_insert|].
      intros j Hj. destruct (decide (j = m)) as [->|Hne].
      + by rewrite entry_insert_eq.
      + rewrite entry_insert_ne by done. apply Hent. lia. }
  apply array_eq; [by rewrite length_replicate|].
  intros j Hj. rewrite Hent, entry_replicate by lia. done.
Qed.

End ModalDecompProps.

Lemma modal_mass_is_one_witness :
  let pair := {| TACS.eig := 4; TACS.err := 0;
                 TACS.vec := [1; 2; 3; 7; 7; 7; 4; 5; 6; 7; 7; 7] |}%R in
  let t := {| TACS.nodes := [0; 0; 0; 1; 0; 0]%R; TACS.vec_size := 12;
              TACS.frequency_analysis := fun _ _ _ _ => Ok (fun _ => pair) |} in
  let s := {| ModalDecomp.tacs := t; ModalDecomp.ndv := 1;
              ModalDecomp.nmodes := 1; ModalDecomp.xpts := TACS.nodes t;
              ModalDecomp.ndof := 6 |} in
  let o' := {| ModalDecomp.mode_shape := [[1; 2; 3; 4; 5; 6]]%R;
               ModalDecomp.modal_mass := [1]%R;
               ModalDecomp.modal_stiffness := [4]%R;
               ModalDecomp.x_s0 := [0; 0; 0; 1; 0; 0]%R |} in
  ModalDecomp.modal_mass o' = replicate (ModalDecomp.nmodes s) 1%R.
Proof.
  intros pair t s o'.
  apply (modal_mass_is_one s
           {| ModalDecomp.dv_struct := [1]%R |}
           {| ModalDecomp.mode_shape := [[0; 0; 0; 0; 0; 0]]%R;
              ModalDecomp.modal_mass := [0]%R;
              ModalDecomp.modal_stiffness := [0]%R;
              ModalDecomp.x_s0 := [9; 9; 9; 9; 9; 9]%R |} o');
    reflexivity.
Defined.

(** C4, the claim as stated fails: the eigenpair below is extracted with the
    error indicator [1], and the decomposition returns the basis built from
    it. *)
Lemma decomp_returns_unconverged_basis :
  let pair := {| TACS.eig := 4; TACS.err := 1;
                 TACS.vec := [1; 2; 3; 7; 7; 7; 4; 5; 6; 7; 7; 7] |}%R in
  let t := {| TACS.nodes := [0; 0; 0; 1; 0; 0]%R; TACS.vec_size := 12;
              TACS.frequency_analysis := fun _ _ _ _ => Ok (fun _ => pair) |} in
  let s := {| ModalDecomp.tacs := t; ModalDecomp.ndv := 1;
              ModalDecomp.nmodes := 1; ModalDecomp.xpts := TACS.nodes t;
              ModalDecomp.ndof := 6 |} in
  TACS.err pair <> 0%R
  /\ ModalDecomp.compute s
       {| ModalDecomp.dv_struct := [1]%R |}
       {| ModalDecomp.mode_shape := [[0; 0; 0; 0; 0; 0]]%R;
          ModalDecomp.modal_mass := [0]%R;
          ModalDecomp.modal_stiffness := [0]%R;
          ModalDecomp.x_s0 := [9; 9; 9; 9; 9; 9]%R |}
     = Ok {| ModalDecomp.mode_shape := [[1; 2; 3; 4; 5; 6]]%R;
             ModalDecomp.modal_mass := [1]%R;
             ModalDecomp.modal_stiffness := [4]%R;
             ModalDecomp.x_s0 := [0; 0; 0; 1; 0; 0]%R |}.
Proof. split; [simpl; lra | reflexivity]. Qed.

(** ** Strided slices *)

Section Strided.
Context {A : Type}.
Implicit Types (a v : list A).

Lemma length_strided_from skip step a :
  step <> 0 ->
  length (np.strided_from skip step a) = (length a + step - 1 - skip) / step.
Proof.
  intros Hstep. revert skip.
  induction a as [|x a IH]; intros skip; simpl.
  - symmetry. apply Nat.div_small. lia.
  - destruct skip as [|skip]; simpl.
    + rewrite IH.
      replace (length a + step - 1 - pred step) with (length a) by lia.
      match goal with
      | |- _ = ?num / _ => replace num with (length a + 1 * step) by lia
      end.
      rewrite Nat.div_add by done. lia.
    + rewrite IH. f_equal. lia.
Qed.

(** A slice [a[skip::step]] of an array of [step * n] entries has [n]
    entries. *)
Lemma length_strided_exact skip step n a :
  skip < step -> length a = step * n ->
  length (np.strided_from skip step a) = n.
Proof.
  intros Hskip Hlen. rewrite length_strided_from by lia. rewrite Hlen.
  symmetry. apply (Nat.div_unique _ _ _ (step - 1 - skip)); lia.
Qed.

Lemma lookup_strided_from skip step a m :
  step <> 0 ->
  np.strided_from skip step a !! m = a !! (skip + m * step).
Proof.
  intros Hstep. revert skip m.
  induction a as [|x a IH]; intros skip m; simpl; [done|].
  destruct skip as [|skip]; simpl.
  - destruct m as [|m]; simpl; [done|]. rewrite IH.
    destruct step as [|step]; [done|]. simpl. f_equal; lia.
  - by rewrite IH.
Qed.

Lemma length_scatter_from skip step a v :
  length (np.scatter_from skip step a v) = length a.
Proof.
  revert skip v. induction a as [|x a IH]; intros skip v; simpl; [done|].
  destruct skip as [|skip]; simpl; [|by rewrite IH].
  destruct v as [|y v]; simpl; [done | by rewrite IH].
Qed.

(** The entries of the slice are the entries of [v], in order. *)
Lemma lookup_scatter_from_hit skip step a v m :
  step <> 0 -> m < length v -> skip + m * step < length a ->
  np.scatter_from skip step a v !! (skip + m * step) = v !! m.
Proof.
  intros Hstep. revert skip v m.
  induction a as [|x a IH]; intros skip v m Hm Ha; simpl in *; [lia|].
  destruct skip as [|skip]; simpl.
  - destruct v as [|y v]; simpl in *; [lia|].
    destruct m as [|m]; simpl; [done|].
    destruct step as [|step]; [done|]. simpl in *.
    rewrite <- (IH step v m); [done | lia | lia].
  - apply IH; [done | lia].
Qed.

(** The entries outside the slice are untouched. *)
Lemma lookup_scatter_from_miss skip step a v p :
  step <> 0 -> (forall m, p <> skip + m * step) ->
  np.scatter_from skip step a v !! p = a !! p.
Proof.
  intros Hstep. revert skip v p.
  induction a as [|x a IH]; intros skip v p Hp; simpl; [done|].
  destruct skip as [|skip]; simpl.
  - destruct v as [|y v]; simpl; [done|].
    destruct p as [|p]; simpl; [by specialize (Hp 0)|].
    apply IH. intros m Hpm. apply (Hp (S m)).
    destruct step as [|step]; [done|]. simpl in *. lia.
  - destruct p as [|p]; simpl; [done|].
    apply IH. intros m Hpm. apply (Hp m). lia.
Qed.

End Strided.

(** ** The modal basis that [ModalDecomp.compute] returns *)

Section ModalDecompBasis.
Local Open Scope R_scope.
Import ModalDecomp.
Context (s : self) (nn : nat).
Context (Hndof : (3 <= ndof s)%nat).

(** The translational components of every node, copied into the row
    [imode] node by node. *)
Lemma scatter_mode_spec imode (v : np.array) (shape : np.array2) r :
  length v = (ndof s * nn)%nat -> has_shape shape r (3 * nn) ->
  (imode < r)%nat ->
  exists shape',
    scatter_mode s imode v shape = Ok shape'
    /\ has_shape shape' r (3 * nn)
    /\ (forall i, i <> imode -> shape' !! i = shape !! i)
    /\ (forall nd idof, (nd < nn)%nat -> (idof < 3)%nat ->
          entry2 shape' imode (idof + nd * 3)
          = entry v (idof + nd * ndof s)).
Proof using Hndof.
  intros Hv Hshape Himode. unfold scatter_mode.
  apply (for_range_total
    (fun m sh => has_shape sh r (3 * nn)
       /\ (forall i, i <> imode -> sh !! i = shape !! i)
       /\ (forall nd idof, (nd < nn)%nat -> (idof < m)%nat ->
             entry2 sh imode (idof + nd * 3)
             = entry v (idof + nd * ndof s)))).
  - split; [done|]. split; [done | intros; lia].
  - intros m sh Hm (Hsh & Hother & Hdone).
    unfold np.getslice. rewrite decide_False by lia. simpl.
    rewrite (getitem_row sh r (3 * nn) Hsh) by done. simpl.
    pose proof (length_row sh r (3 * nn) Hsh imode Himode) as Hrow.
    unfold np.setslice. rewrite decide_False by lia.
    rewrite (length_strided_exact m 3 nn) by (done || lia).
    rewrite broadcast_to_same
      by (apply (length_strided_exact m (ndof s) nn); lia).
    simpl. destruct Hsh as [Hlen Hall].
    rewrite setitem_lt by lia. eexists. split; [done|].
    split; [|split].
    + split; [by rewrite length_insert|].
      apply Forall_insert; [done|]. by rewrite length_scatter_from.
    + intros i Hi. rewrite list_lookup_insert_ne by done. by apply Hother.
    + intros nd idof Hnd Hidof. unfold entry2, row_of.
      rewrite list_lookup_insert_eq by lia. simpl.
      destruct (decide (idof = m)) as [->|Hne].
      * unfold entry. rewrite lookup_scatter_from_hit.
        -- by rewrite lookup_strided_from by lia.
        -- lia.
        -- rewrite (length_strided_exact m (ndof s) nn); lia.
        -- unfold row_of in Hrow. rewrite Hrow. lia.
      * unfold entry. rewrite lookup_scatter_from_miss by lia.
        apply (Hdone nd idof); lia.
Qed.

(** [compute] returns when the eigensolver returns and the arrays have the
    shapes that [setup] declares, and the basis is: unit modal masses, the
    eigenvalues as modal stiffnesses, the translational components of the
    eigenvectors as mode shapes, and the nodal coordinates as [x_s0]. *)
Lemma decomp_compute_spec (i : inputs) (o : outputs) sol :
  TACS.frequency_analysis (tacs s) (dv_struct i) sigma (nmodes s) eig_tol
  = Ok sol ->
  (forall m, (m < nmodes s)%nat ->
     length (TACS.vec (sol m)) = (ndof s * nn)%nat) ->
  has_shape (mode_shape o) (nmodes s) (3 * nn) ->
  length (modal_mass o) = nmodes s ->
  length (modal_stiffness o) = nmodes s ->
  length (x_s0 o) = length (xpts s) ->
  exists o',
    compute s i o = Ok o'
    /\ has_shape (mode_shape o') (nmodes s) (3 * nn)
    /\ modal_mass o' = replicate (nmodes s) 1
    /\ length (modal_stiffness o') = nmodes s
    /\ x_s0 o' = xpts s
    /\ forall m, (m < nmodes s)%nat ->
         entry (modal_stiffness o') m = TACS.eig (sol m)
         /\ forall nd idof, (nd < nn)%nat -> (idof < 3)%nat ->
              entry2 (mode_shape o') m (idof + nd * 3)
              = entry (TACS.vec (sol m)) (idof + nd * ndof s).
Proof using Hndof.
  intros Hsol Hvec Hshape Hmass Hstiff Hx. unfold compute.
  rewrite Hsol. simpl. rewrite assign_same by done. simpl.
  destruct (for_range_total
    (fun k t =>
       has_shape (mode_shape t) (nmodes s) (3 * nn)
       /\ length (modal_mass t) = nmodes s
       /\ length (modal_stiffness t) = nmodes s
       /\ x_s0 t = xpts s
       /\ forall m, (m < k)%nat ->
            entry (modal_mass t) m = 1
            /\ entry (modal_stiffness t) m = TACS.eig (sol m)
            /\ forall nd idof, (nd < nn)%nat -> (idof < 3)%nat ->
                 entry2 (mode_shape t) m (idof + nd * 3)
                 = entry (TACS.vec (sol m)) (idof + nd * ndof s))
    (store_mode s sol) (nmodes s)
    {| mode_shape := mode_shape o; modal_mass := modal_mass o;
       modal_stiffness := modal_stiffness o; x_s0 := xpts s |})
    as (o' & Hrun & Hsh' & Hm' & Hs' & Hx' & Hent).
  - simpl. do 4 (split; [done|]). intros; lia.
  - intros k t Hk (Hsh & Hm & Hs & Hxt & Hent). unfold store_mode.
    rewrite !setitem_lt by lia. simpl.
    destruct (scatter_mode_spec k (TACS.vec (sol k)) (mode_shape t)
                (nmodes s)) as (shape' & -> & Hsh' & Hother & Hnew);
      [by apply Hvec | done | done |].
    simpl. eexists. split; [done|]. simpl.
    split; [done|]. rewrite !length_insert. do 3 (split; [done|]).
    intros m Hmk. destruct (decide (m = k)) as [->|Hne].
    + rewrite !entry_insert_eq by lia. done.
    + rewrite !entry_insert_ne by done.
      destruct (Hent m ltac:(lia)) as (H1 & H2 & H3).
      split; [done|]. split; [done|].
      intros nd idof Hnd Hidof. rewrite <- H3 by done.
      unfold entry2, row_of. by rewrite Hother.
  - exists o'. split; [done|]. split; [done|].
    split; [|split; [done|]; split; [done|]].
    + apply array_eq; [by rewrite length_replicate|].
      intros j Hj. rewrite entry_replicate by lia.
      apply (Hent j). lia.
    + intros m Hm. destruct (Hent m Hm) as (_ & H2 & H3). done.
Qed.

End ModalDecompBasis.

(** C4, amended: an exception of the eigensolver's [solve] leaves
    [compute] as it is, so no basis is returned then. The error indicator
    that comes with each extracted eigenpair is not read: two eigensolver
    results with the same eigenvalues and vectors give the same outcome,
    whatever their error indicators. And whenever [solve] returns, on
    arrays of the shapes that [setup] declares and with at least three
    degrees of freedom per node, [compute] returns the basis built from the
    extracted eigenvalues and vectors (unit modal masses, the eigenvalues
    as modal stiffnesses, the translational components of the vectors as
    mode shapes, the nodal coordinates as [x_s0]), with no condition on the
    error indicators. *)
Theorem decomp_ignores_error_indicator (s : ModalDecomp.self)
    (i : ModalDecomp.inputs) (o : ModalDecomp.outputs) :
  let solve s :=
    TACS.frequency_analysis (ModalDecomp.tacs s) (ModalDecomp.dv_struct i)
      ModalDecomp.sigma (ModalDecomp.nmodes s) ModalDecomp.eig_tol in
  (forall e, solve s = Raise e -> ModalDecomp.compute s i o = Raise e)
  /\ (forall s' sol sol',
        ModalDecomp.nmodes s' = ModalDecomp.nmodes s ->
        ModalDecomp.xpts s' = ModalDecomp.xpts s ->
        ModalDecomp.ndof s' = ModalDecomp.ndof s ->
        solve s = Ok sol -> solve s' = Ok sol' ->
        (forall m, m < ModalDecomp.nmodes s ->
           TACS.eig (sol' m) = TACS.eig (sol m)
           /\ TACS.vec (sol' m) = TACS.vec (sol m)) ->
        ModalDecomp.compute s' i o = ModalDecomp.compute s i o)
  /\ (forall nn sol,
        solve s = Ok sol ->
        3 <= ModalDecomp.ndof s ->
        (forall m, m < ModalDecomp.nmodes s ->
           length (TACS.vec (sol m)) = ModalDecomp.ndof s * nn) ->
        has_shape (ModalDecomp.mode_shape o) (ModalDecomp.nmodes s) (3 * nn) ->
        length (ModalDecomp.modal_mass o) = ModalDecomp.nmodes s ->
        length (ModalDecomp.modal_stiffness o) = ModalDecomp.nmodes s ->
        length (ModalDecomp.x_s0 o) = length (ModalDecomp.xpts s) ->
        exists o',
          ModalDecomp.compute s i o = Ok o'
          /\ has_shape (ModalDecomp.mode_shape o') (ModalDecomp.nmodes s)
               (3 * nn)
          /\ ModalDecomp.modal_mass o' = replicate (ModalDecomp.nmodes s) 1%R
          /\ length (ModalDecomp.modal_stiffness o') = ModalDecomp.nmodes s
          /\ ModalDecomp.x_s0 o' = ModalDecomp.xpts s
          /\ forall m, m < ModalDecomp.nmodes s ->
               entry (ModalDecomp.modal_stiffness o') m = TACS.eig (sol m)
               /\ forall nd idof, nd < nn -> idof < 3 ->
                    entry2 (ModalDecomp.mode_shape o') m (idof + nd * 3)
                    = entry (TACS.vec (sol m))
                        (idof + nd * ModalDecomp.ndof s)).
Proof.
  intros solve. split; [|split].
  - intros e He. unfold ModalDecomp.compute. fold (solve s). by rewrite He.
  - intros s' sol sol' Hn Hx Hd Hsol Hsol' Hsame.
    unfold ModalDecomp.compute. fold (solve s) (solve s').
    rewrite Hsol, Hsol', Hn, Hx. simpl.
    destruct (np.assign _ _) as [x|]; [|done]. simpl.
    apply for_range_ext. intros m t Hm.
    destruct (Hsame m Hm) as [Heig Hvec].
    by apply store_mode_ext.
  - intros nn sol Hsol Hndof Hvec Hshape Hmass Hstiff Hx.
    exact (decomp_compute_spec s nn Hndof i o sol Hsol Hvec Hshape Hmass
             Hstiff Hx).
Qed.

Lemma decomp_ignores_error_indicator_witness :
  let vec := [1; 2; 3; 7; 7; 7; 4; 5; 6; 7; 7; 7]%R in
  let tacs_with outcome :=
    {| TACS.nodes := [0; 0; 0; 1; 0; 0]%R; TACS.vec_size := 12;
       TACS.frequency_analysis := fun _ _ _ _ => outcome |} in
  let decomp outcome :=
    {| ModalDecomp.tacs := tacs_with outcome; ModalDecomp.ndv := 1;
       ModalDecomp.nmodes := 1; ModalDecomp.xpts := [0; 0; 0; 1; 0; 0]%R;
       ModalDecomp.ndof := 6 |} in
  let converged _ :=
    {| TACS.eig := 4%R; TACS.err := 0%R; TACS.vec := vec |} in
  let unconverged _ :=
    {| TACS.eig := 4%R; TACS.err := 1%R; TACS.vec := vec |} in
  let i := {| ModalDecomp.dv_struct := [1]%R |} in
  let o := {| ModalDecomp.mode_shape := [[0; 0; 0; 0; 0; 0]]%R;
              ModalDecomp.modal_mass := [0]%R;
              ModalDecomp.modal_stiffness := [0]%R;
              ModalDecomp.x_s0 := [9; 9; 9; 9; 9; 9]%R |} in
  ModalDecomp.compute (decomp (Raise (ExternalError "solve"))) i o
  = Raise (ExternalError "solve")
  /\ ModalDecomp.compute (decomp (Ok unconverged)) i o
     = ModalDecomp.compute (decomp (Ok converged)) i o
  /\ exists o',
       ModalDecomp.compute (decomp (Ok unconverged)) i o = Ok o'
       /\ has_shape (ModalDecomp.mode_shape o') 1 6
       /\ ModalDecomp.modal_mass o' = [1]%R
       /\ length (ModalDecomp.modal_stiffness o') = 1
       /\ ModalDecomp.x_s0 o' = [0; 0; 0; 1; 0; 0]%R
       /\ forall m, m < 1 ->
            entry (ModalDecomp.modal_stiffness o') m = 4%R
            /\ forall nd idof, nd < 2 -> idof < 3 ->
                 entry2 (ModalDecomp.mode_shape o') m (idof + nd * 3)
                 = entry vec (idof + nd * 6).
Proof.
  intros vec tacs_with decomp converged unconverged i o.
  split; [|split].
  - apply (proj1 (decomp_ignores_error_indicator
                    (decomp (Raise (ExternalError "solve"))) i o)).
    reflexivity.
  - apply (proj1 (proj2 (decomp_ignores_error_indicator
                           (decomp (Ok converged)) i o))
             (decomp (Ok unconverged)) converged unconverged);
      try reflexivity.
    intros m Hm. split; reflexivity.
  - apply (proj2 (proj2 (decomp_ignores_error_indicator
                           (decomp (Ok unconverged)) i o))
             2 unconverged); try reflexivity.
    + simpl. lia.
    + split; [reflexivity | by repeat constructor].
Defined.

(** ** The scenarios of the specification *)

Section Scenarios.
Local Open Scope R_scope.
Import ModalStructAssembler.

Local Ltac entries := simpl; unfold np.sum; simpl; repeat (f_equal; try lra).

(** Scenario 1: the identity as [mode_shape], [f_s = [3,4]] and
    [k = [1,2]] give [mf = [3,4]], [z = [3,2]] and [u_s = [3,2]]. *)
Example scenario_identity_basis :
  exists o',
    run_struct
      {| ModalForces.opts := ∅; ModalForces.nmodes := 2;
         ModalForces.node_size := 2 |}
      {| ModalDisplacements.opts := ∅; ModalDisplacements.nmodes := 2;
         ModalDisplacements.node_size := 2 |}
      [[1; 0]; [0; 1]] [1; 2] [3; 4]
      {| mf := [0; 0]; z := [1; 1]; u_s := [0; 0] |} = Ok o'
    /\ mf o' = [3; 4] /\ z o' = [3; 2] /\ u_s o' = [3; 2].
Proof.
  eexists. split; [reflexivity|]. repeat split; entries.
Qed.

(** Scenario 2: [mode_shape = [[1,1]]], [f_s = [1,1]] and [k = [2]] give
    [mf = [2]], [z = [1]] and [u_s = [1,1]]. *)
Example scenario_single_mode :
  exists o',
    run_struct
      {| ModalForces.opts := ∅; ModalForces.nmodes := 1;
         ModalForces.node_size := 2 |}
      {| ModalDisplacements.opts := ∅; ModalDisplacements.nmodes := 1;
         ModalDisplacements.node_size := 2 |}
      [[1; 1]] [2] [1; 1]
      {| mf := [0]; z := [1]; u_s := [7; 7] |} = Ok o'
    /\ mf o' = [2] /\ z o' = [1] /\ u_s o' = [1; 1].
Proof.
  eexists. split; [reflexivity|]. repeat split; entries.
Qed.

(** The decomposition component that [add_model_components] builds, for
    a model of two nodes with six degrees of freedom each, and the options
    of the solver component. *)
Example scenario_decomp_setup :
  let t := {| TACS.nodes := [0; 0; 0; 1; 0; 0]; TACS.vec_size := 12;
              TACS.frequency_analysis :=
                fun _ _ _ _ => Raise (ExternalError "solve") |} in
  let a := {| nmodes := 2; nnodes := 2; ndv := 5; tacs := t |} in
  struct_modal_decomp {[ "distributed" := options.PyBool false ]} a
  = Ok {| ModalDecomp.tacs := t; ModalDecomp.ndv := 5;
          ModalDecomp.nmodes := 2; ModalDecomp.xpts := [0; 0; 0; 1; 0; 0];
          ModalDecomp.ndof := 6 |}
  /\ exists o,
       modal_solver {[ "distributed" := options.PyBool false ]} a = Ok o
       /\ o !! "nmodes" = Some (options.PyInt 2).
Proof.
  split; [reflexivity|]. eexists. split; reflexivity.
Qed.

End Scenarios.

(** * Further properties of the components *)

(** ** ModalSolver *)

Section ModalSolverMore.
Local Open Scope R_scope.
Import ModalSolver.

(** X1: the solver returns the root of the residual [K z - mf] of its
    docstring wherever [k[i]] is not zero; where [k[i]] is zero and
    [mf[i]] is not, what it returns is no root. *)
Theorem solver_residual (n : nat) (kv mfv zbuf : np.array) :
  length kv = n -> length mfv = n -> length zbuf = n ->
  exists zv,
    compute {| k := kv; mf := mfv |} {| z := zbuf |} = Ok {| z := zv |}
    /\ forall i, (i < n)%nat ->
         (entry kv i <> 0 -> entry kv i * entry zv i - entry mfv i = 0)
         /\ (entry kv i = 0 -> entry mfv i <> 0 ->
             entry kv i * entry zv i - entry mfv i <> 0).
Proof.
  intros Hk Hmf Hz. exists (zip_with Rdiv mfv kv).
  split; [apply solver_compute_same_length; lia|].
  intros i Hi. rewrite entry_zip_with by lia. split.
  - intros Hki. by field.
  - intros -> Hmfi. lra.
Qed.

Lemma solver_residual_witness :
  exists zv,
    compute {| k := [2; 0]; mf := [3; 1] |} {| z := [1; 1] |}
    = Ok {| z := zv |}
    /\ forall i, (i < 2)%nat ->
         (entry [2; 0] i <> 0
          -> entry [2; 0] i * entry zv i - entry [3; 1] i = 0)
         /\ (entry [2; 0] i = 0 -> entry [3; 1] i <> 0 ->
             entry [2; 0] i * entry zv i - entry [3; 1] i <> 0).
Proof.
  apply (solver_residual 2 [2; 0] [3; 1] [1; 1]); reflexivity.
Defined.

(** X2: the dot-product identity of [ModalSolver], for a [k] without a
    zero entry and for accumulators that are not zero at the start: what
    the forward product adds to the tangent of [z], paired with a seed [o],
    equals the tangents of [mf] and [k] paired with what the reverse
    product adds to their adjoints. *)
Theorem solver_dot_product_identity (n : nat)
    (kv mfv dk dmf dz0 o_out ak0 amf0 : np.array) :
  Forall (fun x => x <> 0) kv ->
  length kv = n -> length mfv = n ->
  length dk = n -> length dmf = n -> length dz0 = n ->
  length o_out = n -> length ak0 = n -> length amf0 = n ->
  let inp := {| k := kv; mf := mfv |} in
  exists t ak amf,
    compute_jacvec_product inp {| d_k := Some dk; d_mf := Some dmf |}
      {| d_z := Some dz0 |} "fwd"
    = Ok ({| d_k := Some dk; d_mf := Some dmf |}, {| d_z := Some t |})
    /\ compute_jacvec_product inp {| d_k := Some ak0; d_mf := Some amf0 |}
         {| d_z := Some o_out |} "rev"
       = Ok ({| d_k := Some ak; d_mf := Some amf |}, {| d_z := Some o_out |})
    /\ dot (zip_with Rminus t dz0) o_out
       = dot dmf (zip_with Rminus amf amf0)
         + dot dk (zip_with Rminus ak ak0).
Proof.
  intros Hnz Hk Hmf Hdk Hdmf Hdz Ho Hak Hamf inp.
  assert (Hlen : forall (a b : np.array) (f : R -> R -> R),
             length a = n -> length b = n -> length (zip_with f a b) = n)
    by (intros a b f Ha Hb; rewrite length_zip_with; lia).
  assert (Hcoef : length (zip_with Rdiv (np.neg mfv) (np.square kv)) = n)
    by (apply Hlen; unfold np.neg, np.square; rewrite length_map; lia).
  do 3 eexists. unfold compute_jacvec_product, inp. simpl.
  rewrite solver_jacvec_fwd_same by lia. simpl.
  rewrite solver_jacvec_rev_same by lia. simpl.
  split; [reflexivity|]. split; [reflexivity|].
  rewrite !dot_Sigma by (rewrite ?Hlen; auto; lia).
  rewrite !Hlen, Hdmf, Hdk by auto. rewrite <- Sigma_plus.
  apply Sigma_ext. intros i Hi.
  assert (Hq : forall a : np.array, length a = n ->
             length (zip_with Rdiv a kv) = n) by auto.
  assert (Hc : forall a : np.array, length a = n ->
             length (zip_with Rmult
                       (zip_with Rdiv (np.neg mfv) (np.square kv)) a) = n)
    by auto.
  assert (Hp : forall a b : np.array, length a = n -> length b = n ->
             length (zip_with Rplus a b) = n) by auto.
  rewrite (entry_zip_with Rminus) by (rewrite ?Hp; auto; lia).
  rewrite (entry_zip_with Rminus) by (rewrite ?Hp; auto; lia).
  rewrite (entry_zip_with Rminus) by (rewrite ?Hp; auto; lia).
  rewrite !(entry_zip_with Rplus) by (rewrite ?Hp, ?Hq, ?Hc; auto; lia).
  rewrite !entry_dz_dk_times by lia.
  rewrite !(entry_zip_with Rdiv) by lia.
  pose proof (entry_nonzero kv i Hnz ltac:(lia)) as Hki.
  field. done.
Qed.

Lemma solver_dot_product_identity_witness :
  let inp := {| k := [2; -4]; mf := [3; 1] |} in
  exists t ak amf,
    compute_jacvec_product inp
      {| d_k := Some [1; 0]; d_mf := Some [0; 1] |}
      {| d_z := Some [5; 5] |} "fwd"
    = Ok ({| d_k := Some [1; 0]; d_mf := Some [0; 1] |}, {| d_z := Some t |})
    /\ compute_jacvec_product inp
         {| d_k := Some [7; 7]; d_mf := Some [8; 8] |}
         {| d_z := Some [1; 2] |} "rev"
       = Ok ({| d_k := Some ak; d_mf := Some amf |}, {| d_z := Some [1; 2] |})
    /\ dot (zip_with Rminus t [5; 5]) [1; 2]
       = dot [0; 1] (zip_with Rminus amf [8; 8])
         + dot [1; 0] (zip_with Rminus ak [7; 7]).
Proof.
  apply (solver_dot_product_identity 2 [2; -4] [3; 1] [1; 0] [0; 1] [5; 5]
           [1; 2] [7; 7] [8; 8]); try reflexivity.
  repeat constructor; lra.
Defined.

End ModalSolverMore.

Section JacvecGuards.
Local Open Scope R_scope.

(** X3: [ModalSolver.compute_jacvec_product] changes nothing and raises
    nothing when [z] is not in [d_outputs], when the mode is neither [fwd]
    nor [rev], or when neither [mf] nor [k] is in [d_inputs]; shapes are
    not even looked at. *)
Theorem solver_jacvec_idle (i : ModalSolver.inputs)
    (d_i : ModalSolver.d_inputs) (d_o : ModalSolver.d_outputs)
    (mode : string) :
  ModalSolver.d_z d_o = None
  \/ (mode <> "fwd" /\ mode <> "rev")
  \/ (ModalSolver.d_k d_i = None /\ ModalSolver.d_mf d_i = None) ->
  ModalSolver.compute_jacvec_product i d_i d_o mode = Ok (d_i, d_o).
Proof.
  unfold ModalSolver.compute_jacvec_product, ModalSolver.jacvec_fwd,
    ModalSolver.jacvec_rev.
  destruct d_i as [dk dmf], d_o as [dz]. simpl.
  intros [-> | [[Hf Hr] | [-> ->]]].
  - by repeat case_decide.
  - rewrite decide_False by done. simpl. by rewrite decide_False by done.
  - destruct dz;
      destruct (decide (mode = "fwd")), (decide (mode = "rev"));
      simpl; congruence.
Qed.

Lemma solver_jacvec_idle_witness :
  ModalSolver.compute_jacvec_product
    {| ModalSolver.k := [0; 1]; ModalSolver.mf := [1] |}
    {| ModalSolver.d_k := Some [1; 2; 3]; ModalSolver.d_mf := Some [] |}
    {| ModalSolver.d_z := None |} "fwd"
  = Ok ({| ModalSolver.d_k := Some [1; 2; 3]; ModalSolver.d_mf := Some [] |},
        {| ModalSolver.d_z := None |}).
Proof. apply solver_jacvec_idle. by left. Defined.

(** X4: the guards of the two projections come before the reading of the
    option [nmodes]: when the output seed or the input seed is absent, or
    the mode is neither [fwd] nor [rev], [compute_jacvec_product] of
    [ModalForces] and of [ModalDisplacements] returns the seeds unchanged,
    whatever the options of the component. *)
Theorem projection_jacvec_idle (sf : ModalForces.self)
    (sd : ModalDisplacements.self) (mode : string) :
  (forall i d_i d_o,
     ModalForces.d_mf d_o = None \/ ModalForces.d_f_s d_i = None
     \/ (mode <> "fwd" /\ mode <> "rev") ->
     ModalForces.compute_jacvec_product sf i d_i d_o mode = Ok (d_i, d_o))
  /\ (forall i d_i d_o,
     ModalDisplacements.d_u_s d_o = None \/ ModalDisplacements.d_z d_i = None
     \/ (mode <> "fwd" /\ mode <> "rev") ->
     ModalDisplacements.compute_jacvec_product sd i d_i d_o mode
     = Ok (d_i, d_o)).
Proof.
  split.
  - intros i [dfs] [dmf].
    unfold ModalForces.compute_jacvec_product, ModalForces.jacvec_fwd,
      ModalForces.jacvec_rev. simpl.
    intros [-> | [-> | [Hf Hr]]].
    + by repeat case_decide.
    + destruct dmf;
        destruct (decide (mode = "fwd")), (decide (mode = "rev"));
        simpl; congruence.
    + rewrite decide_False by done. simpl.
      by rewrite decide_False by done.
  - intros i [dz] [dus].
    unfold ModalDisplacements.compute_jacvec_product,
      ModalDisplacements.jacvec_fwd, ModalDisplacements.jacvec_rev. simpl.
    intros [-> | [-> | [Hf Hr]]].
    + by repeat case_decide.
    + destruct dus;
        destruct (decide (mode = "fwd")), (decide (mode = "rev"));
        simpl; congruence.
    + rewrite decide_False by done. simpl.
      by rewrite decide_False by done.
Qed.

Lemma projection_jacvec_idle_witness :
  let sf := {| ModalForces.opts := ∅; ModalForces.nmodes := 1;
               ModalForces.node_size := 3 |} in
  let sd := {| ModalDisplacements.opts := ∅; ModalDisplacements.nmodes := 1;
               ModalDisplacements.node_size := 3 |} in
  ModalForces.compute_jacvec_product sf
    {| ModalForces.mode_shape := [[1; 1; 0]]; ModalForces.f_s := [1; 1; 5] |}
    {| ModalForces.d_f_s := None |} {| ModalForces.d_mf := Some [0] |} "fwd"
  = Ok ({| ModalForces.d_f_s := None |}, {| ModalForces.d_mf := Some [0] |})
  /\ ModalDisplacements.compute_jacvec_product sd
       {| ModalDisplacements.mode_shape := [[1; 1; 0]];
          ModalDisplacements.z := [2] |}
       {| ModalDisplacements.d_z := Some [0] |}
       {| ModalDisplacements.d_u_s := None |} "rev"
     = Ok ({| ModalDisplacements.d_z := Some [0] |},
           {| ModalDisplacements.d_u_s := None |}).
Proof.
  intros sf sd. split.
  - apply (proj1 (projection_jacvec_idle sf sd "fwd")). right. by left.
  - apply (proj2 (projection_jacvec_idle sf sd "rev")). by left.
Defined.

End JacvecGuards.

Section SingleSeeds.
Local Open Scope R_scope.
Import ModalSolver.



End SingleSeeds.

(** X6: for a fixed [mode_shape] and a fixed [k] without a zero entry, the
    chain projection, solve, reconstruction is additive in the nodal force:
    the displacement of [f + g] is the sum of the displacements of [f] and
    of [g]. *)
Theorem struct_chain_is_additive (forces : ModalForces.self)
    (disps : ModalDisplacements.self) (n c : nat)
    (ms : np.array2) (kv fs gs : np.array)
    (o : ModalStructAssembler.struct_outputs) :
  ModalForces.nmodes forces = n -> ModalForces.node_size forces = c ->
  ModalDisplacements.nmodes disps = n ->
  ModalDisplacements.node_size disps = c ->
  has_shape ms n c -> length kv = n ->
  Forall (fun x => x <> 0%R) kv ->
  length fs = c -> length gs = c ->
  length (ModalStructAssembler.mf o) = n ->
  length (ModalStructAssembler.z o) = n ->
  length (ModalStructAssembler.u_s o) = c ->
  exists o1 o2 o3,
    ModalStructAssembler.run_struct forces disps ms kv fs o = Ok o1
    /\ ModalStructAssembler.run_struct forces disps ms kv gs o = Ok o2
    /\ ModalStructAssembler.run_struct forces disps ms kv
         (zip_with Rplus fs gs) o = Ok o3
    /\ ModalStructAssembler.u_s o3
       = zip_with Rplus (ModalStructAssembler.u_s o1)
           (ModalStructAssembler.u_s o2).
Proof.
  intros Hfn Hfc Hdn Hdc Hshape Hk Hnz Hfs Hgs Hmf Hz Hu.
  destruct (run_struct_spec forces disps n c Hfn Hfc Hdn Hdc ms kv Hshape Hk
              fs o Hfs Hmf Hz Hu) as (o1 & Hrun1 & Hl1 & He1).
  destruct (run_struct_spec forces disps n c Hfn Hfc Hdn Hdc ms kv Hshape Hk
              gs o Hgs Hmf Hz Hu) as (o2 & Hrun2 & Hl2 & He2).
  destruct (run_struct_spec forces disps n c Hfn Hfc Hdn Hdc ms kv Hshape Hk
              (zip_with Rplus fs gs) o) as (o3 & Hrun3 & Hl3 & He3);
    [rewrite length_zip_with; lia | done..|].
  exists o1, o2, o3. do 3 (split; [done|]).
  apply array_eq; [rewrite length_zip_with; lia|].
  intros j Hj. rewrite entry_zip_with by lia.
  rewrite He1, He2, He3 by lia. rewrite <- Sigma_plus.
  apply Sigma_ext. intros i Hi.
  rewrite (Sigma_ext c _
    (fun l => entry2 ms i l * entry fs l + entry2 ms i l * entry gs l)%R).
  2:{ intros l Hl. rewrite entry_zip_with by lia. ring. }
  rewrite Sigma_plus.
  pose proof (entry_nonzero kv i Hnz ltac:(lia)) as Hki.
  field. done.
Qed.

Lemma struct_chain_is_additive_witness :
  let forces := {| ModalForces.opts := ∅; ModalForces.nmodes := 1;
                   ModalForces.node_size := 3 |} in
  let disps := {| ModalDisplacements.opts := ∅;
                  ModalDisplacements.nmodes := 1;
                  ModalDisplacements.node_size := 3 |} in
  let o := {| ModalStructAssembler.mf := [1]%R;
              ModalStructAssembler.z := [1]%R;
              ModalStructAssembler.u_s := [0; 0; 0]%R |} in
  let run f :=
    ModalStructAssembler.run_struct forces disps [[1; 1; 0]]%R [2]%R f o in
  exists o1 o2 o3,
    run [1; 1; 5]%R = Ok o1
    /\ run [0; 2; 0]%R = Ok o2
    /\ run (zip_with Rplus [1; 1; 5] [0; 2; 0])%R = Ok o3
    /\ ModalStructAssembler.u_s o3
       = zip_with Rplus (ModalStructAssembler.u_s o1)
           (ModalStructAssembler.u_s o2).
Proof.
  apply (struct_chain_is_additive
           {| ModalForces.opts := ∅; ModalForces.nmodes := 1;
              ModalForces.node_size := 3 |}
           {| ModalDisplacements.opts := ∅;
              ModalDisplacements.nmodes := 1;
              ModalDisplacements.node_size := 3 |}
           1 3 [[1; 1; 0]]%R [2]%R [1; 1; 5]%R [0; 2; 0]%R
           {| ModalStructAssembler.mf := [1]%R;
              ModalStructAssembler.z := [1]%R;
              ModalStructAssembler.u_s := [0; 0; 0]%R |});
    try reflexivity.
  - split; [reflexivity | by repeat constructor].
  - repeat constructor; simpl; lra.
Defined.

(** ** ModalDecomp *)

(** Two matrices of one shape with the same entries are equal. *)
Lemma array2_eq (a b : np.array2) r c :
  has_shape a r c -> has_shape b r c ->
  (forall i j, i < r -> j < c -> entry2 a i j = entry2 b i j) -> a = b.
Proof.
  intros Ha Hb Hent. apply list_eq. intros i.
  destruct (decide (i < r)) as [Hi|Hi].
  - pose proof (length_row a r c Ha i Hi) as Hla.
    pose proof (length_row b r c Hb i Hi) as Hlb.
    destruct Ha as [Hlena _], Hb as [Hlenb _].
    destruct (lookup_lt_is_Some_2 a i) as [x Hx]; [lia|].
    destruct (lookup_lt_is_Some_2 b i) as [y Hy]; [lia|].
    unfold row_of in Hla, Hlb. rewrite Hx in Hla. rewrite Hy in Hlb.
    simpl in *. rewrite Hx, Hy. f_equal.
    apply array_eq; [lia|]. intros j Hj.
    specialize (Hent i j Hi ltac:(lia)).
    unfold entry2, row_of in Hent. by rewrite Hx, Hy in Hent.
  - destruct Ha as [Hlena _], Hb as [Hlenb _].
    rewrite !lookup_ge_None_2; [done | lia..].
Qed.

Section ModalDecompMore.
Local Open Scope R_scope.
Import ModalDecomp.

(** X7: on arrays of the shapes that [setup] declares, for a model with at
    least three degrees of freedom per node, [compute] returns whenever
    the eigensolver does, and the basis is read off the eigenpairs: the
    eigenvalue of pair [m] is [modal_stiffness[m]], the three translational
    components of node [nd] in its vector (entries [ndof nd + idof],
    [idof < 3]) are [mode_shape[m, 3 nd + idof]], the further components
    are dropped, and [x_s0] holds the nodal coordinates. *)
Theorem decomp_basis_from_eigenpairs (s : self) (nn : nat) (i : inputs)
    (o : outputs) (sol : nat -> TACS.eigenpair) :
  (3 <= ndof s)%nat ->
  TACS.frequency_analysis (tacs s) (dv_struct i) sigma (nmodes s) eig_tol
  = Ok sol ->
  (forall m, (m < nmodes s)%nat ->
     length (TACS.vec (sol m)) = (ndof s * nn)%nat) ->
  has_shape (mode_shape o) (nmodes s) (3 * nn) ->
  length (modal_mass o) = nmodes s ->
  length (modal_stiffness o) = nmodes s ->
  length (x_s0 o) = length (xpts s) ->
  exists o',
    compute s i o = Ok o'
    /\ has_shape (mode_shape o') (nmodes s) (3 * nn)
    /\ length (modal_stiffness o') = nmodes s
    /\ x_s0 o' = xpts s
    /\ forall m, (m < nmodes s)%nat ->
         entry (modal_stiffness o') m = TACS.eig (sol m)
         /\ forall nd idof, (nd < nn)%nat -> (idof < 3)%nat ->
              entry2 (mode_shape o') m (idof + nd * 3)
              = entry (TACS.vec (sol m)) (idof + nd * ndof s).
Proof.
  intros Hndof Hsol Hvec Hshape Hmass Hstiff Hx.
  destruct (decomp_compute_spec s nn Hndof i o sol Hsol Hvec Hshape Hmass
              Hstiff Hx) as (o' & Hrun & Hsh & _ & Hst & Hx' & Hent).
  exists o'. done.
Qed.

(** X8: [compute] overwrites every entry of its four outputs: under the
    conditions of the basis theorem, two calls that differ in what the
    output arrays held before give the same outcome. *)
Theorem decomp_overwrites_outputs (s : self) (nn : nat) (i : inputs)
    (o1 o2 : outputs) :
  (3 <= ndof s)%nat ->
  (forall sol m,
     TACS.frequency_analysis (tacs s) (dv_struct i) sigma (nmodes s) eig_tol
     = Ok sol ->
     (m < nmodes s)%nat ->
     length (TACS.vec (sol m)) = (ndof s * nn)%nat) ->
  has_shape (mode_shape o1) (nmodes s) (3 * nn) ->
  has_shape (mode_shape o2) (nmodes s) (3 * nn) ->
  length (modal_mass o1) = nmodes s -> length (modal_mass o2) = nmodes s ->
  length (modal_stiffness o1) = nmodes s ->
  length (modal_stiffness o2) = nmodes s ->
  length (x_s0 o1) = length (xpts s) -> length (x_s0 o2) = length (xpts s) ->
  compute s i o1 = compute s i o2.
Proof.
  intros Hndof Hvec Hsh1 Hsh2 Hm1 Hm2 Hs1 Hs2 Hx1 Hx2.
  destruct (TACS.frequency_analysis (tacs s) (dv_struct i) sigma (nmodes s)
              eig_tol) as [sol|e] eqn:Hsol.
  2:{ unfold compute. by rewrite Hsol. }
  destruct (decomp_compute_spec s nn Hndof i o1 sol Hsol
              (fun m => Hvec sol m eq_refl) Hsh1 Hm1 Hs1 Hx1)
    as (o1' & -> & Hsh1' & Hmass1 & Hst1 & Hxs1 & Hent1).
  destruct (decomp_compute_spec s nn Hndof i o2 sol Hsol
              (fun m => Hvec sol m eq_refl) Hsh2 Hm2 Hs2 Hx2)
    as (o2' & -> & Hsh2' & Hmass2 & Hst2 & Hxs2 & Hent2).
  f_equal. destruct o1' as [sh1 ma1 st1 x1], o2' as [sh2 ma2 st2 x2].
  simpl in *. f_equal; [| congruence | | congruence].
  - apply (array2_eq sh1 sh2 (nmodes s) (3 * nn)); [done..|].
    intros m j Hm Hj.
    replace j with (j mod 3 + j / 3 * 3)%nat
      by (pose proof (Nat.div_mod_eq j 3); lia).
    assert (j mod 3 < 3)%nat by (apply Nat.mod_upper_bound; lia).
    assert (j / 3 < nn)%nat by (apply Nat.Div0.div_lt_upper_bound; lia).
    rewrite (proj2 (Hent1 m Hm)), (proj2 (Hent2 m Hm)) by done. done.
  - apply array_eq; [lia|]. intros m Hm.
    rewrite (proj1 (Hent1 m ltac:(lia))), (proj1 (Hent2 m ltac:(lia))). done.
Qed.

End ModalDecompMore.

Lemma decomp_basis_from_eigenpairs_witness :
  let pair := {| TACS.eig := 4; TACS.err := 0;
                 TACS.vec := [1; 2; 3; 7; 7; 7; 4; 5; 6; 7; 7; 7] |}%R in
  let t := {| TACS.nodes := [0; 0; 0; 1; 0; 0]%R; TACS.vec_size := 12;
              TACS.frequency_analysis := fun _ _ _ _ => Ok (fun _ => pair) |} in
  let s := {| ModalDecomp.tacs := t; ModalDecomp.ndv := 1;
              ModalDecomp.nmodes := 1; ModalDecomp.xpts := TACS.nodes t;
              ModalDecomp.ndof := 6 |} in
  let i := {| ModalDecomp.dv_struct := [1]%R |} in
  let o := {| ModalDecomp.mode_shape := [[0; 0; 0; 0; 0; 0]]%R;
              ModalDecomp.modal_mass := [0]%R;
              ModalDecomp.modal_stiffness := [0]%R;
              ModalDecomp.x_s0 := [9; 9; 9; 9; 9; 9]%R |} in
  exists o',
    ModalDecomp.compute s i o = Ok o'
    /\ has_shape (ModalDecomp.mode_shape o') 1 6
    /\ length (ModalDecomp.modal_stiffness o') = 1
    /\ ModalDecomp.x_s0 o' = [0; 0; 0; 1; 0; 0]%R
    /\ forall m, m < 1 ->
         entry (ModalDecomp.modal_stiffness o') m = 4%R
         /\ forall nd idof, nd < 2 -> idof < 3 ->
              entry2 (ModalDecomp.mode_shape o') m (idof + nd * 3)
              = entry (TACS.vec pair) (idof + nd * 6).
Proof.
  intros pair t s i o.
  apply (decomp_basis_from_eigenpairs s 2 i o (fun _ => pair));
    try reflexivity.
  - simpl. lia.
  - split; [reflexivity | by repeat constructor].
Defined.

Lemma decomp_overwrites_outputs_witness :
  let pair := {| TACS.eig := 4; TACS.err := 0;
                 TACS.vec := [1; 2; 3; 7; 7; 7; 4; 5; 6; 7; 7; 7] |}%R in
  let t := {| TACS.nodes := [0; 0; 0; 1; 0; 0]%R; TACS.vec_size := 12;
              TACS.frequency_analysis := fun _ _ _ _ => Ok (fun _ => pair) |} in
  let s := {| ModalDecomp.tacs := t; ModalDecomp.ndv := 1;
              ModalDecomp.nmodes := 1; ModalDecomp.xpts := TACS.nodes t;
              ModalDecomp.ndof := 6 |} in
  let i := {| ModalDecomp.dv_struct := [1]%R |} in
  ModalDecomp.compute s i
    {| ModalDecomp.mode_shape := [[0; 0; 0; 0; 0; 0]]%R;
       ModalDecomp.modal_mass := [0]%R;
       ModalDecomp.modal_stiffness := [0]%R;
       ModalDecomp.x_s0 := [9; 9; 9; 9; 9; 9]%R |}
  = ModalDecomp.compute s i
      {| ModalDecomp.mode_shape := [[1; 2; 1; 2; 1; 2]]%R;
         ModalDecomp.modal_mass := [8]%R;
         ModalDecomp.modal_stiffness := [-1]%R;
         ModalDecomp.x_s0 := [0; 1; 2; 3; 4; 5]%R |}.
Proof.
  intros pair t s i.
  apply (decomp_overwrites_outputs s 2 i); try reflexivity.
  - simpl. lia.
  - intros sol m Hsol _. injection Hsol as <-. reflexivity.
  - split; [reflexivity | by repeat constructor].
  - split; [reflexivity | by repeat constructor].
Defined.

(** ** Models with fewer than three degrees of freedom per node *)

Section FewDofs.
Local Open Scope R_scope.
Import ModalDecomp.

Lemma broadcast_to_mismatch n (v : np.array) :
  length v <> n -> length v <> 1%nat -> np.broadcast_to n v = Raise ValueError.
Proof.
  intros Hn H1. unfold np.broadcast_to. rewrite decide_False by done.
  by destruct v as [|? [|? ?]].
Qed.

Lemma bind_Ok {A B : Type} (a : A) (f : A -> result B) : Ok a ≫= f = f a.
Proof. done. Qed.

Lemma for_range_from_S {St : Type} (body : nat -> St -> result St) i n st :
  for_range_from i (S n) body st = body i st ≫= for_range_from (S i) n body.
Proof. done. Qed.

Context (s : self) (nn r imode : nat) (v : np.array).
Context (Hlen : length v = (ndof s * nn)%nat) (Himode : (imode < r)%nat).

Local Abbreviation step :=
  (fun idof shape =>
     src ← np.getslice v idof (ndof s);
     row ← np.getitem shape imode;
     row' ← np.setslice row idof 3 src;
     np.setitem shape imode row').

(** The copy of the component [idof] goes through when the model has that
    component. *)
Lemma scatter_step_ok idof (shape : np.array2) :
  (idof < 3)%nat -> (idof < ndof s)%nat -> has_shape shape r (3 * nn) ->
  exists shape', step idof shape = Ok shape' /\ has_shape shape' r (3 * nn).
Proof using Hlen Himode.
  intros H3 Hd Hsh. unfold np.getslice. rewrite decide_False by lia. simpl.
  rewrite (getitem_row shape r (3 * nn) Hsh) by done. simpl.
  pose proof (length_row shape r (3 * nn) Hsh imode Himode) as Hrow.
  unfold np.setslice. rewrite decide_False by lia.
  rewrite (length_strided_exact idof 3 nn) by (done || lia).
  rewrite broadcast_to_same
    by (apply (length_strided_exact idof (ndof s) nn); lia).
  simpl. destruct Hsh as [Hr Hall].
  rewrite setitem_lt by lia. eexists. split; [done|].
  split; [by rewrite length_insert|].
  apply Forall_insert; [done|]. by rewrite length_scatter_from.
Qed.

(** The copy of the first component that the model lacks fails: the slice
    of the eigenvector is one entry short. *)
Lemma scatter_step_short idof (shape : np.array2) :
  idof = ndof s -> (idof < 3)%nat -> (3 <= nn)%nat ->
  has_shape shape r (3 * nn) ->
  step idof shape = Raise ValueError.
Proof using Hlen Himode.
  intros -> Hd Hnn Hsh. unfold np.getslice.
  destruct (decide (ndof s = 0%nat)) as [Hz|Hz]; [done|]. simpl.
  rewrite (getitem_row shape r (3 * nn) Hsh) by done. simpl.
  pose proof (length_row shape r (3 * nn) Hsh imode Himode) as Hrow.
  unfold np.setslice. rewrite decide_False by lia.
  rewrite (length_strided_exact (ndof s) 3 nn) by (done || lia).
  assert (Hshort : length (np.strided_from (ndof s) (ndof s) v)
                   = (nn - 1)%nat).
  { rewrite length_strided_from by done. rewrite Hlen.
    symmetry. apply (Nat.div_unique _ _ _ (ndof s - 1)); nia. }
  rewrite broadcast_to_mismatch by lia. done.
Qed.

(** The three copies of [scatter_mode] stop at the first missing
    component. *)
Lemma scatter_mode_short (shape : np.array2) :
  (ndof s < 3)%nat -> (3 <= nn)%nat -> has_shape shape r (3 * nn) ->
  scatter_mode s imode v shape = Raise ValueError.
Proof using Hlen Himode.
  intros Hd Hnn Hsh. unfold scatter_mode, for_range.
  rewrite for_range_from_S.
  destruct (decide (ndof s = 0%nat)) as [H0|H0].
  { by rewrite (scatter_step_short 0 shape) by (done || lia). }
  destruct (scatter_step_ok 0 shape) as (sh1 & -> & Hsh1); [lia | lia | done |].
  rewrite bind_Ok, for_range_from_S.
  destruct (decide (ndof s = 1%nat)) as [H1|H1].
  { by rewrite (scatter_step_short 1 sh1) by (done || lia). }
  destruct (scatter_step_ok 1 sh1) as (sh2 & -> & Hsh2); [lia | lia | done |].
  rewrite bind_Ok, for_range_from_S.
  by rewrite (scatter_step_short 2 sh2) by (done || lia).
Qed.

End FewDofs.

(** A turn of the loop over the modes fails with the copy. *)
Lemma store_mode_short (s : ModalDecomp.self) (nn r imode : nat)
    (sol : nat -> TACS.eigenpair) (o : ModalDecomp.outputs) :
  ModalDecomp.ndof s < 3 -> 3 <= nn -> imode < r ->
  length (TACS.vec (sol imode)) = ModalDecomp.ndof s * nn ->
  has_shape (ModalDecomp.mode_shape o) r (3 * nn) ->
  imode < length (ModalDecomp.modal_mass o) ->
  imode < length (ModalDecomp.modal_stiffness o) ->
  ModalDecomp.store_mode s sol imode o = Raise ValueError.
Proof.
  intros Hd Hnn Hi Hvec Hsh Hmass Hstiff.
  unfold ModalDecomp.store_mode. cbv zeta.
  rewrite (setitem_lt (ModalDecomp.modal_mass o)), bind_Ok by done.
  rewrite (setitem_lt (ModalDecomp.modal_stiffness o)), bind_Ok by done.
  by rewrite (scatter_mode_short s nn r imode _ Hvec Hi).
Qed.

(** X9: a model with fewer than three degrees of freedom per node and at
    least three nodes cannot be decomposed: the copy of the first missing
    component finds a slice of the eigenvector that is one entry short,
    and [compute] raises [ValueError] in the first mode. *)
Theorem decomp_needs_three_dofs (s : ModalDecomp.self) (nn : nat)
    (i : ModalDecomp.inputs) (o : ModalDecomp.outputs)
    (sol : nat -> TACS.eigenpair) :
  ModalDecomp.ndof s < 3 -> 3 <= nn -> 0 < ModalDecomp.nmodes s ->
  TACS.frequency_analysis (ModalDecomp.tacs s) (ModalDecomp.dv_struct i)
    ModalDecomp.sigma (ModalDecomp.nmodes s) ModalDecomp.eig_tol
  = Ok sol ->
  length (TACS.vec (sol 0)) = ModalDecomp.ndof s * nn ->
  has_shape (ModalDecomp.mode_shape o) (ModalDecomp.nmodes s) (3 * nn) ->
  length (ModalDecomp.modal_mass o) = ModalDecomp.nmodes s ->
  length (ModalDecomp.modal_stiffness o) = ModalDecomp.nmodes s ->
  length (ModalDecomp.x_s0 o) = length (ModalDecomp.xpts s) ->
  ModalDecomp.compute s i o = Raise ValueError.
Proof.
  intros Hd Hnn Hn Hsol Hvec Hsh Hmass Hstiff Hx. unfold ModalDecomp.compute.
  rewrite Hsol, bind_Ok, assign_same, bind_Ok by done.
  destruct (ModalDecomp.nmodes s) as [|k] eqn:Hk; [lia|].
  unfold for_range. rewrite for_range_from_S.
  by rewrite (store_mode_short s nn (S k) 0 sol) by (done || simpl; lia).
Qed.

Lemma decomp_needs_three_dofs_witness :
  let pair := {| TACS.eig := 4; TACS.err := 0;
                 TACS.vec := [1; 2; 3; 4; 5; 6] |}%R in
  let t := {| TACS.nodes := [0; 0; 0; 1; 0; 0; 2; 0; 0]%R;
              TACS.vec_size := 6;
              TACS.frequency_analysis := fun _ _ _ _ => Ok (fun _ => pair) |} in
  let s := {| ModalDecomp.tacs := t; ModalDecomp.ndv := 1;
              ModalDecomp.nmodes := 1; ModalDecomp.xpts := TACS.nodes t;
              ModalDecomp.ndof := 2 |} in
  ModalDecomp.compute s {| ModalDecomp.dv_struct := [1]%R |}
    {| ModalDecomp.mode_shape := [[0; 0; 0; 0; 0; 0; 0; 0; 0]]%R;
       ModalDecomp.modal_mass := [0]%R;
       ModalDecomp.modal_stiffness := [0]%R;
       ModalDecomp.x_s0 := [9; 9; 9; 9; 9; 9; 9; 9; 9]%R |}
  = Raise ValueError.
Proof.
  intros pair t s.
  apply (decomp_needs_three_dofs s 3 _ _ (fun _ => pair));
    try reflexivity; try (simpl; lia).
  split; [reflexivity | by repeat constructor].
Defined.

(** X10: what [setup] of the decomposition component built by
    [add_model_components] does. It fails with [KeyError] when the
    framework has no option [distributed], and with [ZeroDivisionError] when
    the node vector is empty; for [nn > 0] nodes with [d] degrees of
    freedom each it stores exactly [d] as [ndof], the assembler's [nmodes]
    and [ndv], and the nodal coordinates. *)
Theorem decomp_setup_outcomes (fw : gmap string options.optval)
    (a : ModalStructAssembler.self) :
  let t := ModalStructAssembler.tacs a in
  (fw !! "distributed" = None ->
   ModalStructAssembler.struct_modal_decomp fw a
   = Raise (KeyError "distributed"))
  /\ (is_Some (fw !! "distributed") -> length (TACS.nodes t) = 0 ->
      ModalStructAssembler.struct_modal_decomp fw a = Raise ZeroDivisionError)
  /\ (forall nn d,
        is_Some (fw !! "distributed") -> 0 < nn ->
        length (TACS.nodes t) = 3 * nn -> TACS.vec_size t = d * nn ->
        ModalStructAssembler.struct_modal_decomp fw a
        = Ok {| ModalDecomp.tacs := t;
                ModalDecomp.ndv := ModalStructAssembler.ndv a;
                ModalDecomp.nmodes := ModalStructAssembler.nmodes a;
                ModalDecomp.xpts := TACS.nodes t;
                ModalDecomp.ndof := d |}).
Proof.
  intros t.
  unfold ModalStructAssembler.struct_modal_decomp, options.instantiate,
    ModalDecomp.initialize, options.declare.
  assert (Hkeep : forall v1 v2 v3 : options.optval,
    (<["nmodes" := v1]> (<["get_ndv" := v2]> (<["get_tacs" := v3]> fw)))
      !! "distributed" = fw !! "distributed").
  { intros. by rewrite !lookup_insert_ne. }
  split; [|split].
  - intros Hno. unfold options.setitem at 1. by rewrite Hkeep, Hno.
  - intros [b Hb] Hnodes. unfold options.setitem at 1. rewrite Hkeep, Hb.
    simpl. unfold options.setitem.
    repeat (rewrite ?lookup_insert_eq, ?lookup_insert_ne by done; simpl).
    unfold ModalDecomp.setup, options.getitem.
    repeat (rewrite ?lookup_insert_eq, ?lookup_insert_ne by done; simpl).
    unfold ModalDecomp.dof_per_node, ModalStructAssembler.get_tacs.
    fold t. by rewrite decide_True.
  - intros nn d [b Hb] Hnn Hnodes Hvec. unfold options.setitem at 1.
    rewrite Hkeep, Hb. simpl. unfold options.setitem.
    repeat (rewrite ?lookup_insert_eq, ?lookup_insert_ne by done; simpl).
    unfold ModalDecomp.setup, options.getitem.
    repeat (rewrite ?lookup_insert_eq, ?lookup_insert_ne by done; simpl).
    unfold ModalDecomp.dof_per_node, ModalStructAssembler.get_tacs,
      ModalStructAssembler.get_ndv.
    fold t. rewrite decide_False by lia. simpl. do 2 f_equal.
    rewrite Hnodes, Hvec.
    match goal with
    | |- ?x / _ = _ => replace x with (d * (3 * nn)) by lia
    end.
    apply Nat.div_mul. lia.
Qed.

Lemma decomp_setup_outcomes_witness :
  let t := {| TACS.nodes := [0; 0; 0; 1; 0; 0]%R; TACS.vec_size := 12;
              TACS.frequency_analysis :=
                fun _ _ _ _ => Raise (ExternalError "solve") |} in
  let a := {| ModalStructAssembler.nmodes := 2;
              ModalStructAssembler.nnodes := 2;
              ModalStructAssembler.ndv := 5;
              ModalStructAssembler.tacs := t |} in
  ModalStructAssembler.struct_modal_decomp ∅ a
  = Raise (KeyError "distributed")
  /\ ModalStructAssembler.struct_modal_decomp
       {[ "distributed" := options.PyBool false ]} a
     = Ok {| ModalDecomp.tacs := t; ModalDecomp.ndv := 5;
             ModalDecomp.nmodes := 2; ModalDecomp.xpts := TACS.nodes t;
             ModalDecomp.ndof := 6 |}.
Proof.
  intros t a. split.
  - apply (proj1 (decomp_setup_outcomes ∅ a)). reflexivity.
  - apply (proj2 (proj2 (decomp_setup_outcomes
                           {[ "distributed" := options.PyBool false ]} a))
             2 6); [by eexists | lia | reflexivity | reflexivity].
Defined.

(** ** ModalStructAssembler *)

Section AssemblerObject.
Import Assembler.
Local Arguments Nat.div : simpl never.
Local Arguments Nat.modulo : simpl never.

(** X11: [get_tacs] builds the TACS assembler once. After any call, a
    further call returns the same assembler and leaves the object as it is,
    whatever communicator it is given and whatever the mesh loader would
    return now. *)
Theorem get_tacs_builds_once (loader loader' : nat -> string -> mesh)
    (s : self) (c c' : nat) :
  get_tacs loader' (snd (get_tacs loader s c)) c' = get_tacs loader s c.
Proof.
  unfold get_tacs at 2 3. destruct (tacs s) as [t|] eqn:Ht.
  - simpl. unfold get_tacs. by rewrite Ht.
  - destruct (add_elements s (loader c (mesh_file s))) as [dof dv]. done.
Qed.

(** X12: the sizes exist only once [get_tacs] has run. On the object that
    [__init__] leaves, [get_ndv], [get_nnodes] and [get_modal_sizes] raise
    [AttributeError]; after the first [get_tacs] they return the number of
    design variables that [add_elements] gave, and
    [(nmodes, 3 * (size // 3))] for a node vector of [size] entries, which
    is [size] exactly when [size] is a multiple of three. *)
Theorem sizes_need_get_tacs (loader : nat -> string -> mesh)
    (elements : mesh -> nat * nat) (file : string) (n c : nat) :
  let s0 := init elements file n in
  let t := fst (get_tacs loader s0 c) in
  let s1 := snd (get_tacs loader s0 c) in
  let size := length (TACS.nodes t) in
  get_ndv s0 = AttributeError "ndv"
  /\ get_nnodes s0 = AttributeError "nnodes"
  /\ get_modal_sizes s0 = AttributeError "nnodes"
  /\ tacs s1 = Some t
  /\ t = createTACS (loader c file) (fst (elements (loader c file)))
  /\ get_ndv s1 = Value (snd (elements (loader c file)))
  /\ get_nnodes s1 = Value (size / 3)
  /\ get_modal_sizes s1 = Value (n, size / 3 * 3)
  /\ (size / 3 * 3 = size <-> size mod 3 = 0).
Proof.
  intros s0 t s1 size. subst size t s1 s0. unfold get_tacs, init. simpl.
  destruct (elements (loader c file)) as [dof dv] eqn:He.
  do 8 (split; [reflexivity|]). simpl.
  match goal with
  | |- ?x / 3 * 3 = ?x <-> _ => pose proof (Nat.div_mod_eq x 3)
  end.
  lia.
Qed.

End AssemblerObject.

(** ** Connections *)

Section Wiring.
Import Assembler.

Lemma string_app_assoc (a b c : string) :
  (a +:+ b) +:+ c = a +:+ (b +:+ c).
Proof.
  induction a as [|x a IH]; [done|].
  change (String x ((a +:+ b) +:+ c) = String x (a +:+ (b +:+ c))).
  by rewrite IH.
Qed.

(** [path ... suffix + tail] is the path with the longer suffix. *)
Lemma path_app (scenario fsi_group : group) (suffix tail : string) :
  path scenario fsi_group suffix +:+ tail
  = path scenario fsi_group (suffix +:+ tail).
Proof. unfold path. apply string_app_assoc. Qed.

Lemma path_inj (scenario fsi_group : group) (s1 s2 : string) :
  path scenario fsi_group s1 = path scenario fsi_group s2 -> s1 = s2.
Proof. unfold path. apply (inj _). Qed.

Lemma list_ascii_app (a b : string) :
  String.list_ascii_of_string (a +:+ b)
  = String.list_ascii_of_string a ++ String.list_ascii_of_string b.
Proof.
  induction a as [|x a IH]; [done|].
  change (x :: String.list_ascii_of_string (a +:+ b)
          = x :: (String.list_ascii_of_string a ++ String.list_ascii_of_string b)).
  by rewrite IH.
Qed.

(** A path ends with its suffix. *)
Lemma path_suffix (scenario fsi_group : group) (s t : string) :
  path scenario fsi_group s = t ->
  String.list_ascii_of_string s `suffix_of` String.list_ascii_of_string t.
Proof.
  intros <-. unfold path. rewrite list_ascii_app. by apply suffix_app_r.
Qed.

(** The sources that the two builders register. *)
Lemma built_srcs (model scenario fsi_group : group)
    (srcs0 : gmap string string) :
  let srcs :=
    snd (add_fsi_components scenario fsi_group
           (snd (add_model_components model srcs0))) in
  srcs !! "dv_struct" = srcs0 !! "dv_struct"
  /\ srcs !! "f_s" = srcs0 !! "f_s"
  /\ srcs !! "mf"
     = Some (path scenario fsi_group ".struct.modal_forces.mf")
  /\ srcs !! "z" = Some (path scenario fsi_group ".struct.modal_solver.z")
  /\ srcs !! "mode_shape" = Some "struct_modal_decomp.mode_shape"
  /\ srcs !! "modal_stiffness" = Some "struct_modal_decomp.modal_stiffness".
Proof.
  unfold add_fsi_components, add_model_components, add_subsystem. simpl.
  repeat split;
    repeat (rewrite ?lookup_insert_eq, ?lookup_insert_ne by done); done.
Qed.

End Wiring.

Section Connect.
Import Assembler.

Lemma rsplit_head_app (a t head : string) :
  rsplit_head t = Some head -> rsplit_head (a +:+ t) = Some (a +:+ head).
Proof.
  intros Ht. induction a as [|x a IH]; [done|].
  change (rsplit_head (String x (a +:+ t)) = Some (String x (a +:+ head))).
  simpl. by rewrite IH.
Qed.

(** The head of a path is the path of the head of its suffix. *)
Lemma parent_path (scenario fsi_group : group) (t head : string) :
  rsplit_head t = Some head ->
  parent (path scenario fsi_group t) = path scenario fsi_group head.
Proof.
  intros Ht. unfold parent, path. by rewrite (rsplit_head_app _ t head).
Qed.

Lemma connect_free (connections : gmap string string)
    (src_name tgt_name : string) :
  connections !! tgt_name = None -> parent src_name <> parent tgt_name ->
  connect connections src_name tgt_name
  = Ok (<[tgt_name := src_name]> connections).
Proof.
  intros Hfree Hne. unfold connect. rewrite Hfree.
  by rewrite decide_False by done.
Qed.

Lemma connect_taken (connections : gmap string string)
    (src_name tgt_name srcname : string) :
  connections !! tgt_name = Some srcname ->
  connect connections src_name tgt_name
  = Raise (already_connected tgt_name srcname).
Proof. intros Htaken. unfold connect. by rewrite Htaken. Qed.

End Connect.

Section WiringTheorems.
Import Assembler.
Context (model scenario fsi_group : group) (srcs0 : gmap string string).

Local Abbreviation srcs :=
  (snd (add_fsi_components scenario fsi_group
          (snd (add_model_components model srcs0)))).
Local Abbreviation at_path := (path scenario fsi_group).

(** A name without the two group names in front is no path. *)
Lemma constant_not_path (c s : string) :
  bool_decide
    (String.list_ascii_of_string s `suffix_of` String.list_ascii_of_string c)
  = false ->
  c <> at_path s.
Proof using Type.
  intros Hs Heq. apply bool_decide_eq_false in Hs. apply Hs.
  by apply (path_suffix scenario fsi_group).
Qed.

Lemma path_ne (s1 s2 : string) : s1 <> s2 -> at_path s1 <> at_path s2.
Proof using Type.
  intros Hne Heq. apply Hne. by apply (path_inj scenario fsi_group).
Qed.

Local Ltac names_differ :=
  first [ by apply constant_not_path
        | by apply path_ne
        | by apply not_eq_sym, constant_not_path ].

(** The systems of two names differ. *)
Local Ltac heads_differ :=
  erewrite ?parent_path by reflexivity;
  first [ assumption
        | by apply path_ne
        | by apply constant_not_path ].

(** The seven inputs are seven names. *)
Lemma wiring_targets_distinct :
  NoDup ["struct_modal_decomp.dv_struct";
         at_path ".struct.modal_forces.f_s";
         at_path ".struct.modal_solver.mf";
         at_path ".struct.modal_disps.z";
         at_path ".struct.modal_forces.mode_shape";
         at_path ".struct.modal_disps.mode_shape";
         at_path ".struct.modal_solver.k"].
Proof using Type.
  repeat (apply NoDup_cons_2;
          [intros Hin; rewrite ?elem_of_cons, elem_of_nil in Hin;
           repeat (destruct Hin as [Hin|Hin];
                   [first [ by apply constant_not_path in Hin
                          | by apply path_ne in Hin ] |]);
           done |]).
  apply NoDup_nil_2.
Qed.

(** The connections that [connect_inputs] leaves when the two foreign
    sources are there, neither lies in the system that it feeds, and the
    seven inputs are free. *)
Lemma connect_inputs_built (connections : gmap string string)
    (dv f : string) :
  srcs0 !! "dv_struct" = Some dv -> srcs0 !! "f_s" = Some f ->
  parent dv <> "struct_modal_decomp" ->
  parent f <> at_path ".struct.modal_forces" ->
  Forall (fun tgt => connections !! tgt = None)
    ["struct_modal_decomp.dv_struct";
     at_path ".struct.modal_forces.f_s";
     at_path ".struct.modal_solver.mf";
     at_path ".struct.modal_disps.z";
     at_path ".struct.modal_forces.mode_shape";
     at_path ".struct.modal_disps.mode_shape";
     at_path ".struct.modal_solver.k"] ->
  connect_inputs connections scenario fsi_group srcs
  = Ok (<[at_path ".struct.modal_solver.k"
          := "struct_modal_decomp.modal_stiffness"]>
        (<[at_path ".struct.modal_disps.mode_shape"
           := "struct_modal_decomp.mode_shape"]>
         (<[at_path ".struct.modal_forces.mode_shape"
            := "struct_modal_decomp.mode_shape"]>
          (<[at_path ".struct.modal_disps.z"
             := at_path ".struct.modal_solver.z"]>
           (<[at_path ".struct.modal_solver.mf"
              := at_path ".struct.modal_forces.mf"]>
            (<[at_path ".struct.modal_forces.f_s" := f]>
             (<["struct_modal_decomp.dv_struct" := dv]> connections))))))).
Proof using Type.
  intros Hdv Hf Hpdv Hpf Hfree.
  rewrite !Forall_cons in Hfree.
  destruct Hfree as (F1 & F2 & F3 & F4 & F5 & F6 & F7 & _).
  destruct (built_srcs model scenario fsi_group srcs0)
    as (Edv & Ef & Emf & Ez & Eshape & Ek).
  unfold connect_inputs, src.
  rewrite Edv, Hdv, Ef, Hf, Emf, Ez, Eshape, Ek. simpl.
  rewrite !path_app.
  change (".struct.modal_forces" +:+ ".f_s")
    with ".struct.modal_forces.f_s".
  change (".struct.modal_solver" +:+ ".mf") with ".struct.modal_solver.mf".
  change (".struct.modal_disps" +:+ ".z") with ".struct.modal_disps.z".
  change (".struct.modal_forces" +:+ ".mode_shape")
    with ".struct.modal_forces.mode_shape".
  change (".struct.modal_disps" +:+ ".mode_shape")
    with ".struct.modal_disps.mode_shape".
  change (".struct.modal_solver" +:+ ".k") with ".struct.modal_solver.k".
  repeat (rewrite connect_free, bind_Ok;
          [| rewrite ?lookup_insert_ne by names_differ; assumption
           | heads_differ ]).
  rewrite connect_free; [done | | heads_differ].
  rewrite ?lookup_insert_ne by names_differ. assumption.
Qed.

(** X13: of the six sources that [connect_inputs] reads, the assembler's
    own builders register four; [dv_struct] and [f_s] must come from
    elsewhere. After [add_model_components] and [add_fsi_components],
    [connect_inputs] returns only when the dictionary held both before.
    Without [dv_struct] it raises [KeyError] for it before any connection
    is made; without [f_s] it raises [KeyError] for it once [dv_struct] is
    connected, which takes an input [struct_modal_decomp.dv_struct] that is
    still free and a source outside the decomposition. *)
Theorem connect_inputs_needs_foreign_sources
    (connections : gmap string string) :
  ((exists connections',
      connect_inputs connections scenario fsi_group srcs = Ok connections')
   -> is_Some (srcs0 !! "dv_struct") /\ is_Some (srcs0 !! "f_s"))
  /\ (srcs0 !! "dv_struct" = None ->
      connect_inputs connections scenario fsi_group srcs
      = Raise (KeyError "dv_struct"))
  /\ (forall dv,
        srcs0 !! "dv_struct" = Some dv -> srcs0 !! "f_s" = None ->
        connections !! "struct_modal_decomp.dv_struct" = None ->
        parent dv <> "struct_modal_decomp" ->
        connect_inputs connections scenario fsi_group srcs
        = Raise (KeyError "f_s")).
Proof using Type.
  destruct (built_srcs model scenario fsi_group srcs0)
    as (Edv & Ef & _).
  split; [|split].
  - intros [connections' Hrun]. unfold connect_inputs, src in Hrun.
    rewrite Edv, Ef in Hrun.
    destruct (srcs0 !! "dv_struct") as [dv|]; [|done].
    simpl in Hrun.
    destruct (connect connections dv _) as [connections1|]; [|done].
    simpl in Hrun.
    destruct (srcs0 !! "f_s") as [f|]; [|done].
    split; by eexists.
  - intros Hdv. unfold connect_inputs, src. by rewrite Edv, Hdv.
  - intros dv Hdv Hf Hfree Hpdv. unfold connect_inputs, src.
    rewrite Edv, Hdv, Ef, Hf. simpl.
    by rewrite connect_free by done.
Qed.

(** X14: the connections follow the chain of the components. With the two
    foreign sources [dv] and [f] there, neither in the system that it
    feeds, and the seven inputs still free, [connect_inputs] returns and
    adds seven connections: [dv] to the decomposition, [f] to the force
    projection, the output [mf] of the projection to the solver, the output
    [z] of the solver to the reconstruction, [mode_shape] of the
    decomposition to both projections and its [modal_stiffness] to [k] of
    the solver. The seven inputs are seven names. The input of the
    decomposition does not carry the names of the scenario and of the
    group: a further call on the same model, for whatever scenario and
    group, raises [RuntimeError] at its first connection. *)
Theorem connect_inputs_wiring (connections : gmap string string)
    (dv f : string) :
  srcs0 !! "dv_struct" = Some dv -> srcs0 !! "f_s" = Some f ->
  parent dv <> "struct_modal_decomp" ->
  parent f <> at_path ".struct.modal_forces" ->
  let added :=
    [("struct_modal_decomp.dv_struct", dv);
     (at_path ".struct.modal_forces" +:+ ".f_s", f);
     (at_path ".struct.modal_solver" +:+ ".mf",
      at_path ".struct.modal_forces" +:+ ".mf");
     (at_path ".struct.modal_disps" +:+ ".z",
      at_path ".struct.modal_solver" +:+ ".z");
     (at_path ".struct.modal_forces" +:+ ".mode_shape",
      "struct_modal_decomp.mode_shape");
     (at_path ".struct.modal_disps" +:+ ".mode_shape",
      "struct_modal_decomp.mode_shape");
     (at_path ".struct.modal_solver" +:+ ".k",
      "struct_modal_decomp.modal_stiffness")] in
  Forall (fun tgt => connections !! tgt = None) added.*1 ->
  NoDup added.*1
  /\ connect_inputs connections scenario fsi_group srcs
     = Ok (list_to_map added ∪ connections)
  /\ forall scenario' fsi_group' srcs',
       is_Some (srcs' !! "dv_struct") ->
       connect_inputs (list_to_map added ∪ connections) scenario'
         fsi_group' srcs'
       = Raise (already_connected "struct_modal_decomp.dv_struct" dv).
Proof using Type.
  intros Hdv Hf Hpdv Hpf added Hfree. subst added.
  rewrite !path_app in *. simpl fmap in *.
  change (".struct.modal_forces" +:+ ".f_s")
    with ".struct.modal_forces.f_s" in *.
  change (".struct.modal_forces" +:+ ".mf")
    with ".struct.modal_forces.mf" in *.
  change (".struct.modal_solver" +:+ ".mf")
    with ".struct.modal_solver.mf" in *.
  change (".struct.modal_solver" +:+ ".z")
    with ".struct.modal_solver.z" in *.
  change (".struct.modal_disps" +:+ ".z") with ".struct.modal_disps.z" in *.
  change (".struct.modal_forces" +:+ ".mode_shape")
    with ".struct.modal_forces.mode_shape" in *.
  change (".struct.modal_disps" +:+ ".mode_shape")
    with ".struct.modal_disps.mode_shape" in *.
  change (".struct.modal_solver" +:+ ".k")
    with ".struct.modal_solver.k" in *.
  pose proof wiring_targets_distinct as Hdistinct.
  split; [done|]. split.
  - rewrite (connect_inputs_built connections dv f) by done. f_equal.
    match goal with
    | |- _ = list_to_map ?l ∪ _ =>
        rewrite (list_to_map_proper l (reverse l));
          [| done | by rewrite reverse_Permutation]
    end.
    simpl. rewrite <- !insert_union_l. by rewrite (left_id ∅ _).
  - intros scenario' fsi_group' srcs' [dv' Hdv'].
    unfold connect_inputs, src. rewrite Hdv'. simpl.
    rewrite (connect_taken _ dv' _ dv); [done|].
    apply lookup_union_Some_l. simpl. apply lookup_insert_eq.
Qed.

End WiringTheorems.

Lemma connect_inputs_needs_foreign_sources_witness :
  let model := {| Assembler.name := ""; Assembler.subsystems := [] |} in
  let scenario :=
    {| Assembler.name := "cruise"; Assembler.subsystems := [] |} in
  let fsi_group :=
    {| Assembler.name := "fsi"; Assembler.subsystems := [] |} in
  let srcs :=
    snd (Assembler.add_fsi_components scenario fsi_group
           (snd (Assembler.add_model_components model
                   {[ "dv_struct" := "dv.dv_struct" ]}))) in
  Assembler.connect_inputs ∅ scenario fsi_group srcs
  = Raise (KeyError "f_s").
Proof.
  intros model scenario fsi_group srcs.
  apply (proj2 (proj2 (connect_inputs_needs_foreign_sources model scenario
                         fsi_group {[ "dv_struct" := "dv.dv_struct" ]} ∅))
           "dv.dv_struct"); try reflexivity.
  vm_compute. discriminate.
Defined.

Lemma connect_inputs_wiring_witness :
  let model := {| Assembler.name := ""; Assembler.subsystems := [] |} in
  let scenario :=
    {| Assembler.name := "cruise"; Assembler.subsystems := [] |} in
  let fsi_group :=
    {| Assembler.name := "fsi"; Assembler.subsystems := [] |} in
  let srcs0 : gmap string string :=
    {[ "dv_struct" := "dv.dv_struct"; "f_s" := "cruise.fsi.aero.f_s" ]} in
  let srcs :=
    snd (Assembler.add_fsi_components scenario fsi_group
           (snd (Assembler.add_model_components model srcs0))) in
  let added :=
    [("struct_modal_decomp.dv_struct", "dv.dv_struct");
     ("cruise.fsi.struct.modal_forces.f_s", "cruise.fsi.aero.f_s");
     ("cruise.fsi.struct.modal_solver.mf",
      "cruise.fsi.struct.modal_forces.mf");
     ("cruise.fsi.struct.modal_disps.z",
      "cruise.fsi.struct.modal_solver.z");
     ("cruise.fsi.struct.modal_forces.mode_shape",
      "struct_modal_decomp.mode_shape");
     ("cruise.fsi.struct.modal_disps.mode_shape",
      "struct_modal_decomp.mode_shape");
     ("cruise.fsi.struct.modal_solver.k",
      "struct_modal_decomp.modal_stiffness")] in
  NoDup added.*1
  /\ Assembler.connect_inputs ∅ scenario fsi_group srcs
     = Ok (list_to_map added ∪ ∅)
  /\ forall scenario' fsi_group' srcs',
       is_Some (srcs' !! "dv_struct") ->
       Assembler.connect_inputs (list_to_map added ∪ ∅) scenario'
         fsi_group' srcs'
       = Raise (Assembler.already_connected "struct_modal_decomp.dv_struct"
                  "dv.dv_struct").
Proof.
  intros model scenario fsi_group srcs0 srcs added.
  apply (connect_inputs_wiring model scenario fsi_group srcs0 ∅
           "dv.dv_struct" "cruise.fsi.aero.f_s"); try reflexivity.
  - vm_compute. discriminate.
  - vm_compute. discriminate.
  - by repeat constructor.
Defined.

(** ** Keyword arguments of the components *)

(** X15: which options the components accept. [ModalSolver(nmodes=n)]
    holds [n] under [nmodes], and [1] when the argument is left out.
    [ModalForces] and [ModalDisplacements] refuse the argument [nmodes]
    with [KeyError] when the framework declares no such option, and their
    [setup] raises [RuntimeError] when [get_modal_sizes], which they
    declare without a default, was not given. *)
Theorem component_keyword_arguments (fw : gmap string options.optval)
    (n : nat) :
  fw !! "nmodes" = None ->
  (exists o,
      options.instantiate fw ModalSolver.initialize
        [("nmodes", options.PyInt n)] = Ok o
      /\ options.getitem o "nmodes" = Ok (options.PyInt n))
  /\ (exists o,
      options.instantiate fw ModalSolver.initialize [] = Ok o
      /\ options.getitem o "nmodes" = Ok (options.PyInt 1))
  /\ options.instantiate fw ModalForces.initialize
       [("nmodes", options.PyInt n)] = Raise (KeyError "nmodes")
  /\ options.instantiate fw ModalDisplacements.initialize
       [("nmodes", options.PyInt n)] = Raise (KeyError "nmodes")
  /\ (exists o,
      options.instantiate fw ModalForces.initialize [] = Ok o
      /\ ModalForces.setup o = Raise (RuntimeError "get_modal_sizes"))
  /\ (exists o,
      options.instantiate fw ModalDisplacements.initialize [] = Ok o
      /\ ModalDisplacements.setup o
         = Raise (RuntimeError "get_modal_sizes")).
Proof.
  intros Hfw.
  unfold options.instantiate, ModalSolver.initialize,
    ModalForces.initialize, ModalDisplacements.initialize, options.declare.
  simpl. unfold options.setitem.
  rewrite lookup_insert_eq, lookup_insert_ne, Hfw by done. simpl.
  repeat split.
  - eexists. split; [reflexivity|]. unfold options.getitem.
    by rewrite lookup_insert_eq.
  - eexists. split; [reflexivity|]. unfold options.getitem.
    by rewrite lookup_insert_eq.
  - eexists. split; [reflexivity|].
    unfold ModalForces.setup, options.getitem. by rewrite lookup_insert_eq.
  - eexists. split; [reflexivity|].
    unfold ModalDisplacements.setup, options.getitem.
    by rewrite lookup_insert_eq.
Qed.

Lemma component_keyword_arguments_witness :
  let fw : gmap string options.optval :=
    {[ "distributed" := options.PyBool false ]} in
  options.instantiate fw ModalForces.initialize
    [("nmodes", options.PyInt 2)] = Raise (KeyError "nmodes")
  /\ exists o,
       options.instantiate fw ModalSolver.initialize
         [("nmodes", options.PyInt 2)] = Ok o
       /\ options.getitem o "nmodes" = Ok (options.PyInt 2).
Proof.
  intros fw.
  destruct (component_keyword_arguments fw 2 eq_refl)
    as (Hsolver & _ & Hforces & _).
  split; [exact Hforces | exact Hsolver].
Defined.

(** ** The compliance of the chain *)

Section Compliance.
Local Open Scope R_scope.

Lemma Sigma_nonneg n f :
  (forall i, (i < n)%nat -> 0 <= f i) -> 0 <= Sigma n f.
Proof.
  induction n as [|n IH]; intros Hf; simpl; [lra|].
  pose proof (Hf n ltac:(lia)). pose proof (IH ltac:(intros; apply Hf; lia)).
  lra.
Qed.

(** The displacement of [f] paired with a second load [g], as a sum over
    the modes. *)
Lemma chain_pairing (forces : ModalForces.self)
    (disps : ModalDisplacements.self) (n c : nat)
    (ms : np.array2) (kv fs gs : np.array)
    (o : ModalStructAssembler.struct_outputs) :
  ModalForces.nmodes forces = n -> ModalForces.node_size forces = c ->
  ModalDisplacements.nmodes disps = n ->
  ModalDisplacements.node_size disps = c ->
  has_shape ms n c -> length kv = n -> length fs = c -> length gs = c ->
  length (ModalStructAssembler.mf o) = n ->
  length (ModalStructAssembler.z o) = n ->
  length (ModalStructAssembler.u_s o) = c ->
  exists o1,
    ModalStructAssembler.run_struct forces disps ms kv fs o = Ok o1
    /\ dot (ModalStructAssembler.u_s o1) gs
       = Sigma n (fun i =>
           Sigma c (fun l => entry2 ms i l * entry fs l)
           * Sigma c (fun l => entry2 ms i l * entry gs l) / entry kv i).
Proof.
  intros Hfn Hfc Hdn Hdc Hshape Hk Hfs Hgs Hmf Hz Hu.
  destruct (run_struct_spec forces disps n c Hfn Hfc Hdn Hdc ms kv Hshape Hk
              fs o Hfs Hmf Hz Hu) as (o1 & Hrun1 & Hl1 & He1).
  exists o1. split; [done|].
  rewrite dot_Sigma, Hl1 by lia.
  rewrite (Sigma_ext c _ (fun j => Sigma n (fun i =>
    Sigma c (fun l => entry2 ms i l * entry fs l) / entry kv i
    * (entry2 ms i j * entry gs j)))).
  2:{ intros j Hj. rewrite He1 by done.
      rewrite Rmult_comm, <- Sigma_scal. apply Sigma_ext. intros i _.
      unfold Rdiv. ring. }
  rewrite <- Sigma_swap. apply Sigma_ext. intros i _.
  rewrite Sigma_scal. unfold Rdiv. ring.
Qed.

(** X16: for a [k] without a zero entry the chain projection, solve,
    reconstruction is reciprocal: the displacement under a load [f], paired
    with a second load [g], equals the displacement under [g] paired with
    [f]. With positive modal stiffnesses the work [f . u_s] of a load on its
    own displacement is never negative. *)
Theorem struct_chain_reciprocity (forces : ModalForces.self)
    (disps : ModalDisplacements.self) (n c : nat)
    (ms : np.array2) (kv fs gs : np.array)
    (o : ModalStructAssembler.struct_outputs) :
  ModalForces.nmodes forces = n -> ModalForces.node_size forces = c ->
  ModalDisplacements.nmodes disps = n ->
  ModalDisplacements.node_size disps = c ->
  has_shape ms n c -> length kv = n ->
  Forall (fun x => x <> 0) kv ->
  length fs = c -> length gs = c ->
  length (ModalStructAssembler.mf o) = n ->
  length (ModalStructAssembler.z o) = n ->
  length (ModalStructAssembler.u_s o) = c ->
  exists o1 o2,
    ModalStructAssembler.run_struct forces disps ms kv fs o = Ok o1
    /\ ModalStructAssembler.run_struct forces disps ms kv gs o = Ok o2
    /\ dot (ModalStructAssembler.u_s o1) gs
       = dot (ModalStructAssembler.u_s o2) fs
    /\ (Forall (fun x => 0 < x) kv ->
        0 <= dot (ModalStructAssembler.u_s o1) fs).
Proof.
  intros Hfn Hfc Hdn Hdc Hshape Hk Hnz Hfs Hgs Hmf Hz Hu.
  destruct (chain_pairing forces disps n c ms kv fs gs o)
    as (o1 & Hrun1 & Hfg); [done..|].
  destruct (chain_pairing forces disps n c ms kv gs fs o)
    as (o2 & Hrun2 & Hgf); [done..|].
  destruct (chain_pairing forces disps n c ms kv fs fs o)
    as (o1' & Hrun1' & Hff); [done..|].
  rewrite Hrun1 in Hrun1'. injection Hrun1' as <-.
  exists o1, o2. do 2 (split; [done|]). split.
  - rewrite Hfg, Hgf. apply Sigma_ext. intros i Hi.
    pose proof (entry_nonzero kv i Hnz ltac:(lia)) as Hki.
    field. done.
  - intros Hpos. rewrite Hff. apply Sigma_nonneg. intros i Hi.
    assert (Hki : 0 < entry kv i)
      by (apply (Forall_lookup_1 _ _ _ _ Hpos (lookup_entry kv i ltac:(lia)))).
    pose proof (Rinv_pos _ Hki). unfold Rdiv. nra.
Qed.

Lemma struct_chain_reciprocity_witness :
  let forces := {| ModalForces.opts := ∅; ModalForces.nmodes := 1;
                   ModalForces.node_size := 3 |} in
  let disps := {| ModalDisplacements.opts := ∅;
                  ModalDisplacements.nmodes := 1;
                  ModalDisplacements.node_size := 3 |} in
  let o := {| ModalStructAssembler.mf := [1];
              ModalStructAssembler.z := [1];
              ModalStructAssembler.u_s := [0; 0; 0] |} in
  let run f :=
    ModalStructAssembler.run_struct forces disps [[1; 1; 0]] [2] f o in
  exists o1 o2,
    run [1; 1; 5] = Ok o1
    /\ run [0; 2; 0] = Ok o2
    /\ dot (ModalStructAssembler.u_s o1) [0; 2; 0]
       = dot (ModalStructAssembler.u_s o2) [1; 1; 5]
    /\ (Forall (fun x => 0 < x) [2] ->
        0 <= dot (ModalStructAssembler.u_s o1) [1; 1; 5]).
Proof.
  apply (struct_chain_reciprocity
           {| ModalForces.opts := ∅; ModalForces.nmodes := 1;
              ModalForces.node_size := 3 |}
           {| ModalDisplacements.opts := ∅;
              ModalDisplacements.nmodes := 1;
              ModalDisplacements.node_size := 3 |}
           1 3 [[1; 1; 0]] [2] [1; 1; 5] [0; 2; 0]
           {| ModalStructAssembler.mf := [1];
              ModalStructAssembler.z := [1];
              ModalStructAssembler.u_s := [0; 0; 0] |});
    try reflexivity.
  - split; [reflexivity | by repeat constructor].
  - repeat constructor; simpl; lra.
Defined.

End Compliance.
